(** * extract_with_structure_v2: the tree-to-path mapping of the Roblox extractor

    A shallow embedding of [src/extract_with_structure_v2.py] and the
    properties of its specification.

    Conventions of the model.
    - A Python [str] is a Rocq [string] holding its UTF-8 bytes.  Every
      character the program inspects or inserts is ASCII, and every byte of a
      non-ASCII character is at least 128, so working on bytes is the same as
      working on code points.
    - An [xml.etree.ElementTree.Element] is an [Element]: tag, attributes,
      text and children.  Python compares and hashes elements by identity; an
      element of the parsed document is therefore carried together with its
      location, the list of child indices leading to it from the root.
    - A file-system path is the list of its segments: ['src/server/A.lua'] is
      [["src"; "server"; "A.lua"]].  Every segment the program builds is
      non-empty and free of ['/'], so the two forms determine each other.
    - The file system is a POSIX file system without links, in which the
      paths of the program are followed from the working directory as the
      operating system does.  The run is described for every file system
      that it may start in; [extract_scripts_with_structure] is the run in
      one that holds nothing. *)

From stdpp Require Import gmap strings list fin_maps fin_sets pretty sorting.
From Stdlib Require Import Ascii.

Local Open Scope string_scope.
Local Open Scope list_scope.
Local Open Scope nat_scope.

#[local] Set Warnings "-register-all".
#[local] Set Warnings "-clear-no-such-hyp".

(** ** Strings *)

Module Str.

(** The double quote, written by its code. *)
Definition dquote : ascii := "034"%char.

Fixpoint map (f : ascii → ascii) (s : string) : string :=
  match s with
  | EmptyString => EmptyString
  | String c s' => String (f c) (map f s')
  end.

(** Python truthiness of an optional text: present and not empty. *)
Definition truthy (t : option string) : option string :=
  match t with
  | Some EmptyString => None
  | Some s => Some s
  | None => None
  end.

End Str.

(** ** [clean_name] (lines 11-15) *)

(** The character class of the regular expression: the nine characters
    less-than, greater-than, colon, double quote, slash, backslash, bar,
    question mark and star. *)
Definition invalid_char (c : ascii) : bool :=
  bool_decide (c ∈ ["<"; ">"; ":"; Str.dquote; "/"; "\"; "|"; "?"; "*"]%char).

Definition clean_char (c : ascii) : ascii :=
  if invalid_char c then "_"%char else c.

(** [re.sub] with a one-character class as pattern: every character of the
    class is replaced by an underscore, everything else is copied. *)
Definition clean_name (name : string) : string := Str.map clean_char name.

(** ** The parsed document *)

Inductive Element : Type :=
  mkElement {
    tag : string;
    attrib : list (string * string);
    text : option string;
    children : list Element
  }.

(** [d.get(key)] on a dictionary held as a list of bindings. *)
Fixpoint assoc {V : Type} (key : string) (d : list (string * V)) : option V :=
  match d with
  | [] => None
  | (k, v) :: d' => if decide (k = key) then Some v else assoc key d'
  end.

(** [elem.get(key)]. *)
Definition get (key : string) (e : Element) : option string :=
  assoc key (attrib e).

(** Identity of an element of the document: the child indices from the root. *)
Abbreviation loc := (list nat) (only parsing).

(** An element as the program holds it: the object and its identity. *)
Abbreviation node := (list nat * Element)%type (only parsing).

(** [for child in parent]: the children, in order. *)
Definition children_of (parent : node) : list node :=
  imap (λ i c, (parent.1 ++ [i], c)) (children parent.2).

(** [e.iter()]: the element and all its descendants, in document order. *)
Fixpoint iter_from (p : loc) (e : Element) {struct e} : list node :=
  match e with
  | mkElement _ _ _ cs =>
      (p, e) ::
      (fix go (i : nat) (cs : list Element) {struct cs} : list node :=
         match cs with
         | [] => []
         | c :: cs' => iter_from (p ++ [i]) c ++ go (S i) cs'
         end) 0 cs
  end.

Definition iter (root : Element) : list node := iter_from [] root.

(** [root.iter('Item')]. *)
Definition iter_tag (tg : string) (root : Element) : list node :=
  filter (λ n, tag n.2 = tg) (iter root).

(** The children of [e] with tag [tg], in order (one step of a path). *)
Definition child_elems (tg : string) (e : Element) : list Element :=
  filter (λ c, tag c = tg) (children e).

(** [e.find('./Properties/TG[@name=NM]')]: the first match in document
    order, if any. *)
Definition find_property (tg nm : string) (e : Element) : option Element :=
  head (filter (λ s, get "name" s = Some nm)
               (child_elems "Properties" e ≫= child_elems tg)).

(** [name_elem is not None and name_elem.text], giving the text. *)
Definition item_name_of (e : Element) : option string :=
  find_property "string" "Name" e ≫= λ name_elem, Str.truthy (text name_elem).

(** [source_elem is not None and source_elem.text], giving the text. *)
Definition source_of (e : Element) : option string :=
  find_property "ProtectedString" "Source" e ≫=
    λ source_elem, Str.truthy (text source_elem).

(** ** [find_parent_service] (lines 17-43) *)

Definition service_names : list string :=
  ["ServerScriptService"; "ServerStorage"; "ReplicatedStorage";
   "StarterPlayer"; "StarterGui"; "Workspace"].

(** Lines 22-26: the dictionary from each child to its parent. *)
Definition build_parent_map (root : Element) : gmap loc node :=
  foldl (λ parent_map parent,
           foldl (λ parent_map child, <[child.1 := parent]> parent_map)
                 parent_map (children_of parent))
        ∅ (iter root).

(** [path[:-1]]. *)
Definition all_but_last {A : Type} (l : list A) : list A := removelast l.

(** Lines 32-43: the loop, with the number of iterations bounded by [fuel];
    [None] means the bound was reached.  [current] is [None] for Python's
    [None], and [current != root] compares identities: the root is the
    element at the empty location. *)
Fixpoint walk_up (parent_map : gmap loc node) (fuel : nat)
    (current : option node) (path : list string)
    : option (option string * list string) :=
  match fuel with
  | O => None
  | S fuel =>
      match current with
      | None => Some (None, [])
      | Some cur =>
          if decide (cur.1 = []) then Some (None, [])
          else
            let continue path := walk_up parent_map fuel (parent_map !! cur.1) path in
            if decide (tag cur.2 = "Item") then
              match item_name_of cur.2 with
              | Some item_name =>
                  let path := path ++ [item_name] in
                  if decide (item_name ∈ service_names)
                  then Some (Some item_name, reverse (all_but_last path))
                  else continue path
              | None => continue path
              end
            else continue path
      end
  end.

(** The service and the path below it.  The loop leaves an element for its
    parent at every iteration, so one more iteration than the depth of
    [element] is enough (lemma [find_parent_service_total]). *)
Definition find_parent_service (element : node) (root : Element)
    : option (option string * list string) :=
  let parent_map := build_parent_map root in
  walk_up parent_map (S (length element.1)) (Some element) [].

(** ** Loops and failures *)

(** What ends an operation: a result; an [OSError] that nobody catches; or
    the iteration bound of a loop of the model. *)
Inductive outcome (A : Type) : Type :=
  | Done (a : A)
  | Raised
  | OutOfFuel.
Arguments Done {A} a.
Arguments Raised {A}.
Arguments OutOfFuel {A}.

#[global] Instance outcome_ret : MRet outcome := λ A a, Done a.
#[global] Instance outcome_bind : MBind outcome := λ A B f c,
  match c with
  | Done a => f a
  | Raised => Raised
  | OutOfFuel => OutOfFuel
  end.

#[global] Instance outcome_fmap : FMap outcome := λ A B f c,
  match c with
  | Done a => Done (f a)
  | Raised => Raised
  | OutOfFuel => OutOfFuel
  end.

(** [for item in items: ...], stopping at the first failure. *)
Fixpoint for_each {A S : Type} (body : S → A → outcome S) (st : S)
    (items : list A) : outcome S :=
  match items with
  | [] => Done st
  | item :: items => st ← body st item; for_each body st items
  end.

(** ** The file system

    A POSIX file system without links.  An entry is a directory or a regular
    file with its text, and it is known by its location: the names that lead
    to it from the root directory.  The root directory, at the empty
    location, is always there; [dirs] holds the other directories.

    The program names an entry by a path relative to the working directory
    [cwd].  The operating system follows such a path segment by segment:
    [.] stands for the directory reached so far, [..] for its parent (the
    root directory being its own parent), any other segment for the entry of
    that name, and what has been reached before a segment is followed has to
    be a directory.  Nothing is normalized beforehand: [a/../b] is found
    only if [a] is a directory.

    An operation fails for the reasons given here and for no other (the
    process may read and write everywhere, and no name is too long). *)

Abbreviation fpath := (list string) (only parsing).

Record FileSystem : Type :=
  mkFS { cwd : fpath; dirs : gset fpath; files : gmap fpath string }.

(** A file system that holds nothing, the working directory being its
    root. *)
Definition empty_fs : FileSystem := mkFS [] ∅ ∅.

Definition is_dir (fs : FileSystem) (l : fpath) : bool :=
  bool_decide (l = [] ∨ l ∈ dirs fs).

Definition is_file (fs : FileSystem) (l : fpath) : bool :=
  bool_decide (is_Some (files fs !! l)).

Definition dot_segment (s : string) : Prop := s = "." ∨ s = "..".

(** Where one segment leads from the directory at [l]. *)
Definition step (l : fpath) (segment : string) : fpath :=
  if decide (segment = ".") then l
  else if decide (segment = "..") then removelast l
  else l ++ [segment].

(** Where the path [p] leads from [l], if every segment is followed from a
    directory. *)
Fixpoint walk (fs : FileSystem) (l : fpath) (p : fpath) : option fpath :=
  match p with
  | [] => Some l
  | segment :: p => if is_dir fs l then walk fs (step l segment) p else None
  end.

(** The location that a path of the program denotes; there may be nothing
    at it.  The empty path denotes nothing. *)
Definition locate (fs : FileSystem) (p : fpath) : option fpath :=
  match p with
  | [] => None
  | _ :: _ => walk fs (cwd fs) p
  end.

(** [os.path.exists]. *)
Definition path_exists (fs : FileSystem) (p : fpath) : bool :=
  match locate fs p with
  | Some l => is_dir fs l || is_file fs l
  | None => false
  end.

(** [os.path.dirname] and [os.path.join]. *)
Definition dirname (p : fpath) : fpath := removelast p.
Definition join (p : fpath) (parts : list string) : fpath := p ++ parts.

(** The path and its ancestors below the working directory, outermost
    first: for [a/b/c] these are [a], [a/b] and [a/b/c]. *)
Definition prefixes {A : Type} (p : list A) : list (list A) :=
  (λ n, take n p) <$> seq 1 (length p).

(** [os.mkdir] as [os.makedirs] uses it when [exist_ok] is true: a
    directory that is there is left alone; a regular file in the way, or a
    path that leads nowhere, is an error. *)
Definition make_dir (fs : FileSystem) (p : fpath) : outcome FileSystem :=
  match locate fs p with
  | Some l =>
      if is_dir fs l then Done fs
      else if is_file fs l then Raised
      else Done (mkFS (cwd fs) ({[l]} ∪ dirs fs) (files fs))
  | None => Raised
  end.

(** [os.makedirs(p, exist_ok=True)]: the ancestors of [p] and [p] itself,
    outermost first, are made where they are missing.  (The library looks
    for the innermost ancestor that exists and starts there; the ancestors
    above it are directories, or the path would not lead to it, so starting
    at the outermost one gives the same.) *)
Definition makedirs (p : fpath) (fs : FileSystem) : outcome FileSystem :=
  match p with
  | [] => Raised
  | _ :: _ => for_each make_dir fs (prefixes p)
  end.

(** [open(p, 'w', encoding='utf-8')] followed by [f.write(s)]: fails on a
    directory and on a path that leads nowhere, else creates or replaces.
    The text is stored as it is written, as on a POSIX system, where the
    text mode does not translate line ends. *)
Definition write_text (p : fpath) (s : string) (fs : FileSystem)
    : outcome FileSystem :=
  match locate fs p with
  | Some l =>
      if is_dir fs l then Raised
      else Done (mkFS (cwd fs) (dirs fs) (<[l := s]> (files fs)))
  | None => Raised
  end.

(** Slicing and appending on the text of a path act on its last segment (the
    program only does this to paths whose last segment ends in [.lua]). *)
Definition on_last (f : string → string) (p : fpath) : fpath :=
  match reverse p with
  | [] => []
  | s :: r => reverse r ++ [f s]
  end.

(** [s[:-n]]. *)
Definition chop (n : nat) (s : string) : string :=
  String.substring 0 (String.length s - n) s.

(** [f"{base_path}_{counter}.lua"]. *)
Definition suffixed (base_path : fpath) (counter : nat) : fpath :=
  on_last (λ s, s +:+ "_" +:+ pretty counter +:+ ".lua") base_path.

(** Lines 133-135: the first [counter], from the given one on, whose name is
    free; at most [fuel] names are tried. *)
Fixpoint first_free (fs : FileSystem) (base_path : fpath) (fuel counter : nat)
    : option nat :=
  match fuel with
  | O => None
  | S fuel =>
      if path_exists fs (suffixed base_path counter)
      then first_free fs base_path fuel (S counter)
      else Some counter
  end.

(** Lines 130-136.  A file system with [n] entries cannot hold all of
    [n + 1] different names (lemma [resolve_duplicate_total]). *)
Definition resolve_duplicate (fs : FileSystem) (file_path : fpath)
    : outcome fpath :=
  if path_exists fs file_path then
    let base_path := on_last (chop 4) file_path in
    match first_free fs base_path (S (size (dirs fs) + size (files fs))) 1 with
    | Some counter => Done (suffixed base_path counter)
    | None => OutOfFuel
    end
  else Done file_path.

(** ** [extract_scripts_with_structure] (lines 45-159) *)

(** One entry of [scripts_found] (lines 143-149). *)
Record ScriptInfo : Type :=
  mkScriptInfo {
    script_name : string;
    script_type : string;
    script_path : fpath;
    script_service : string;
    script_full_path : string
  }.

(** What the loop over the items carries along.  [parent_map_builds] is not
    a variable of the program: it counts how often the loops of lines 24-26
    and 79-81 have been run. *)
Record State : Type :=
  mkState {
    fs : FileSystem;
    scripts_found : list ScriptInfo;
    folder_structure : gset fpath;
    parent_map_builds : nat
  }.

(** Lines 68-75. *)
Definition service_mapping : list (string * fpath) :=
  [("ServerScriptService", ["src"; "server"]);
   ("ServerStorage", ["src"; "server"]);
   ("ReplicatedStorage", ["src"; "shared"]);
   ("StarterPlayer", ["src"; "client"]);
   ("StarterGui", ["src"; "client"]);
   ("Workspace", ["src"; "workspace"])].

Definition script_classes : list string :=
  ["Script"; "LocalScript"; "ModuleScript"].

(** Lines 106-113. *)
Definition starter_player_rule (service_name : string)
    (path_from_service : list string) : list string :=
  if decide (service_name = "StarterPlayer") then
    match path_from_service with
    | first :: rest =>
        if decide (first = "StarterPlayerScripts") then rest
        else path_from_service
    | [] => path_from_service
    end
  else path_from_service.

(** Lines 115-128: the file path before duplicates are looked at, and the
    folder that line 121 creates, if any. *)
Definition script_target (base_dir : fpath) (item_name : string)
    (path_from_service : list string) : option fpath * fpath :=
  match path_from_service with
  | _ :: _ =>
      let folder_parts := clean_name <$> all_but_last path_from_service in
      let file_name := clean_name (List.last path_from_service "") +:+ ".lua" in
      match folder_parts with
      | _ :: _ =>
          let folder_path := join base_dir folder_parts in
          (Some folder_path, join folder_path [file_name])
      | [] => (None, join base_dir [file_name])
      end
  | [] => (None, join base_dir [clean_name item_name +:+ ".lua"])
  end.

(** Lines 102-152, for an item of a script class. *)
Definition handle_script (st : State) (item : node)
    (item_class item_name service_name : string) (base_dir : fpath)
    (path_from_service : list string) : outcome State :=
  match source_of item.2 with
  | None => Done st
  | Some source =>
      let path_from_service := starter_player_rule service_name path_from_service in
      let '(folder, file_path) := script_target base_dir item_name path_from_service in
      '(fs1, folder_structure1) ←
        match folder with
        | Some folder_path =>
            fs1 ← makedirs folder_path (fs st);
            Done (fs1, {[dirname file_path]} ∪ folder_structure st)
        | None => Done (fs st, folder_structure st)
        end;
      file_path ← resolve_duplicate fs1 file_path;
      fs2 ← makedirs (dirname file_path) fs1;
      fs3 ← write_text file_path source fs2;
      Done (mkState fs3
              (scripts_found st ++
                 [mkScriptInfo item_name item_class file_path service_name
                    (String.concat "/" (service_name :: path_from_service))])
              folder_structure1
              (parent_map_builds st))
  end.

(** Lines 155-159, for an item of class [Folder]. *)
Definition handle_folder (st : State) (base_dir : fpath)
    (path_from_service : list string) : outcome State :=
  match path_from_service with
  | _ :: _ =>
      let folder_path := join base_dir (clean_name <$> path_from_service) in
      fs1 ← makedirs folder_path (fs st);
      Done (mkState fs1 (scripts_found st)
              ({[folder_path]} ∪ folder_structure st)
              (parent_map_builds st))
  | [] => Done st
  end.

(** Lines 85-159: the body of the loop over the items. *)
Definition process_item (root : Element) (st : State) (item : node)
    : outcome State :=
  let item_class := get "class" item.2 in
  match item_name_of item.2 with
  | None => Done st
  | Some item_name =>
      match find_parent_service item root with
      | None => OutOfFuel
      | Some (service_name, path_from_service) =>
          let st := mkState (fs st) (scripts_found st) (folder_structure st)
                      (S (parent_map_builds st)) in
          match service_name ≫= λ s, pair s <$> assoc s service_mapping with
          | None => Done st
          | Some (service_name, base_dir) =>
              match item_class with
              | Some cls =>
                  if decide (cls ∈ script_classes) then
                    handle_script st item cls item_name service_name base_dir
                      path_from_service
                  else if decide (cls = "Folder") then
                    handle_folder st base_dir path_from_service
                  else Done st
              | None => Done st
              end
          end
      end
  end.

(** Lines 59-65 and 77-81, in the file system that lines 53-57 leave behind:
    the three base directories, the empty collections, and the parent map
    that line 78 builds. *)
Definition initial_state_in (world : FileSystem) : outcome State :=
  fs1 ← makedirs ["src"; "server"] world;
  fs2 ← makedirs ["src"; "client"] fs1;
  fs3 ← makedirs ["src"; "shared"] fs2;
  Done (mkState fs3 [] ∅ 1).

(** The run on a parsed document, up to the summary. *)
Definition extract_scripts_with_structure_in (world : FileSystem)
    (root : Element) : outcome State :=
  st ← initial_state_in world;
  for_each (process_item root) st (iter_tag "Item" root).

(** The run in a file system that holds nothing. *)
Definition extract_scripts_with_structure (root : Element) : outcome State :=
  extract_scripts_with_structure_in empty_fs root.

(** Lines 163-171: the total and the grouping by service of the summary. *)
Definition total_scripts (st : State) : nat := length (scripts_found st).

Definition by_service (scripts : list ScriptInfo) : gmap string (list string) :=
  foldl (λ by_service script,
           <[script_service script :=
               default [] (by_service !! script_service script)
                 ++ [script_full_path script]]> by_service)
        ∅ scripts.

(** ** The summary (lines 165-194)

    Only what the summary computes is modelled, not the text of the lines
    that are printed. *)

(** [s.split(sep)] for a separator of one character: the pieces between the
    separators, empty ones included; never the empty list. *)
Fixpoint split_on (sep : ascii) (s : string) : list string :=
  match s with
  | EmptyString => [EmptyString]
  | String c s' =>
      if decide (c = sep) then EmptyString :: split_on sep s'
      else match split_on sep s' with
           | w :: ws => String c w :: ws
           | [] => [String c EmptyString]
           end
  end.

(** Lines 180-182: the folder under which a path is counted, [None] for a
    path that is listed as a root script. *)
Definition first_folder (path : string) : option string :=
  let parts := split_on "/" path in
  if decide (2 < length parts) then Some (nth 1 parts "") else None.

(** Lines 177-187: the number of paths per first folder, and the root
    scripts in their order. *)
Definition group_by_first_folder (paths : list string)
    : gmap string nat * list string :=
  foldl (λ '(folders, root_scripts) path,
           match first_folder path with
           | Some folder =>
               (<[folder := S (default 0 (folders !! folder))]> folders,
                root_scripts)
           | None => (folders, root_scripts ++ [path])
           end)
        (∅, []) paths.

(** [sorted(d.items())]: the keys of a dictionary are distinct, so the order
    of the pairs is the order of their keys. *)
Definition sorted_items {V : Type} (d : gmap string V) : list (string * V) :=
  merge_sort (λ x y, String.le x.1 y.1) (map_to_list d).

(** A string that does not hold the separator. *)
Definition free_of (sep : ascii) (s : string) : Prop :=
  ∀ i, String.get i s ≠ Some sep.

(** [script.split('/')[-1]] (line 192). *)
Definition last_part (path : string) : string :=
  List.last (split_on "/" path) "".

(** What is reported for one service: its name and number of scripts (line
    175), the folders with their numbers (lines 189-190), the names shown
    for the first three root scripts (lines 191-192) and the number of the
    remaining ones, if any (lines 193-194). *)
Record ServiceBlock : Type :=
  mkServiceBlock {
    block_service : string;
    block_count : nat;
    block_folders : list (string * nat);
    block_shown : list string;
    block_more : option nat
  }.

Definition service_block (service : string) (paths : list string)
    : ServiceBlock :=
  let '(folders, root_scripts) := group_by_first_folder paths in
  mkServiceBlock service (length paths) (sorted_items folders)
    (last_part <$> take 3 root_scripts)
    (if decide (3 < length root_scripts)
     then Some (length root_scripts - 3) else None).

(** Lines 174-194: one block for each service, in the order of the names. *)
Definition summary (scripts : list ScriptInfo) : list ServiceBlock :=
  (λ '(service, paths), service_block service paths)
    <$> sorted_items (by_service scripts).

(** ** Notions of the specification *)

(** The element at a location of the document. *)
Fixpoint element_at (e : Element) (p : loc) : option Element :=
  match p with
  | [] => Some e
  | i :: p' => children e !! i ≫= λ c, element_at c p'
  end.

(** The name an element contributes to a path: that of an [Item] with a
    non-empty [Name]. *)
Definition named (e : Element) : option string :=
  if decide (tag e = "Item") then item_name_of e else None.

(** The service an element is named after, if any. *)
Definition service_named (e : Element) : option string :=
  named e ≫= λ n, if decide (n ∈ service_names) then Some n else None.

(** The elements on the way from the root (excluded) down to the element at
    [p] (included), outermost first. *)
Definition way_down (root : Element) (p : loc) : list Element :=
  omap (element_at root) (prefixes p).

(** The same way, the root included. *)
Definition way_down_with_root (root : Element) (p : loc) : list Element :=
  root :: way_down root p.

(** The loop of [find_parent_service] as a function of the elements it
    visits, innermost first. *)
Fixpoint scan (chain : list Element) (path : list string)
    : option string * list string :=
  match chain with
  | [] => (None, [])
  | e :: chain =>
      match named e with
      | Some n =>
          if decide (n ∈ service_names) then (Some n, reverse path)
          else scan chain (path ++ [n])
      | None => scan chain path
      end
  end.

(** The base directory of a service (the table of lines 68-75). *)
Definition base_dir_of (service_name : string) : fpath :=
  default [] (assoc service_name service_mapping).

(** The service and the path of a node that has a service. *)
Definition resolved (r : option (option string * list string))
    : option (string * list string) :=
  r ≫= λ '(service_name, path), (λ s, (s, path)) <$> service_name.

(** A script to extract: an item of a script class with a name, a service
    and a source text. *)
Record job : Type :=
  mkJob {
    job_class : string;
    job_name : string;
    job_service : string;
    job_path : list string;
    job_source : string
  }.

Definition script_job (root : Element) (item : node) : option job :=
  cls ← get "class" item.2;
  if decide (cls ∈ script_classes) then
    name ← item_name_of item.2;
    sp ← resolved (find_parent_service item root);
    source ← source_of item.2;
    Some (mkJob cls name sp.1 sp.2 source)
  else None.

(** The file path computed for a script before duplicates are looked at. *)
Definition job_target (j : job) : fpath :=
  (script_target (base_dir_of (job_service j)) (job_name j)
     (starter_player_rule (job_service j) (job_path j))).2.

(** The entry of [scripts_found] for a script written to [file_path]. *)
Definition job_record (j : job) (file_path : fpath) : ScriptInfo :=
  mkScriptInfo (job_name j) (job_class j) file_path (job_service j)
    (String.concat "/"
       (job_service j :: starter_player_rule (job_service j) (job_path j))).

(** The [counter]-th alternative name of a file path: [file_path[:-4]]
    followed by the counter and the extension. *)
Definition numbered (file_path : fpath) (counter : nat) : fpath :=
  suffixed (on_last (chop 4) file_path) counter.

(** A folder to create: an item of class [Folder] with a name, a service and
    a non-empty path; its service and directory. *)
Definition folder_job (root : Element) (item : node) : option (string * fpath) :=
  cls ← get "class" item.2;
  if decide (cls = "Folder") then
    _ ← item_name_of item.2;
    sp ← resolved (find_parent_service item root);
    match sp.2 with
    | [] => None
    | _ :: _ => Some (sp.1, join (base_dir_of sp.1) (clean_name <$> sp.2))
    end
  else None.

(** The directory an item asks for, with its service: the directory of the
    file of a script, the directory of a folder. *)
Definition demand (root : Element) (item : node) : option (string * fpath) :=
  match script_job root item with
  | Some j => Some (job_service j, dirname (job_target j))
  | None => folder_job root item
  end.

(** The directories of lines 60-62 and their ancestor [src]. *)
Definition base_directories : list fpath :=
  [["src"]; ["src"; "server"]; ["src"; "client"]; ["src"; "shared"]].

(** The run on the first [k] items. *)
Definition run_upto_in (world : FileSystem) (root : Element) (k : nat)
    : outcome State :=
  st ← initial_state_in world;
  for_each (process_item root) st (take k (iter_tag "Item" root)).

(** How lines 130-136 choose the path of a file whose computed path is
    [target], in a file system [fs]: [target] itself when it is free, else the
    first free alternative, counting from 1. *)
Definition allocated (fs : FileSystem) (target file_path : fpath) : Prop :=
  path_exists fs file_path = false ∧
  (path_exists fs target = false ∧ file_path = target ∨
   path_exists fs target = true ∧
   ∃ counter, 1 ≤ counter ∧ file_path = numbered target counter ∧
     ∀ c, 1 ≤ c < counter → path_exists fs (numbered target c) = true).

(** Where a path leads from the location [l], the directories on the way
    being there. *)
Definition place (l : fpath) (p : fpath) : fpath := foldl step l p.

(** A file system as it can be: the working directory is a directory, every
    entry lies in a directory, and a regular file is not a directory. *)
Record well_formed (fs : FileSystem) : Prop :=
  mkWellFormed {
    wf_cwd : is_dir fs (cwd fs) = true;
    wf_dirs : ∀ l, l ∈ dirs fs → is_dir fs (removelast l) = true;
    wf_files : ∀ l, is_Some (files fs !! l) →
                    is_dir fs (removelast l) = true ∧ is_dir fs l = false
  }.

(** No item of the document is named [.] or [..]. *)
Definition plain_names (root : Element) : Prop :=
  Forall (λ name, ¬ dot_segment name)
         (omap (λ n : node, named n.2) (iter root)).

(** The paths that the run asks to be directories while it handles the
    items [processed]: the base directories, and the directories that these
    items ask for with their ancestors. *)
Definition asked (root : Element) (processed : list node) (q : fpath) : Prop :=
  q ∈ base_directories ∨
  ∃ item service_name dir,
    item ∈ processed ∧ demand root item = Some (service_name, dir) ∧
    q ∈ prefixes dir.

(** ** Notions used in the proofs *)

(** The assignments of lines 24-26, in the order in which they are made. *)
Definition edges (root : Element) : list (loc * node) :=
  iter root ≫= λ parent, (λ child : node, (child.1, parent)) <$> children_of parent.

(** The locations of the files of the extracted scripts. *)
Definition places_found (world : FileSystem) (st : State) : list fpath :=
  (λ r, place (cwd world) (script_path r)) <$> scripts_found st.

(** What holds after the items [processed] have been handled, the run
    having started in [world]. *)
Record invariant (world : FileSystem) (root : Element) (processed : list node)
    (st : State) : Prop :=
  mkInvariant {
    inv_cwd : cwd (fs st) = cwd world;
    inv_wf : well_formed (fs st);
    inv_dirs : ∀ d,
      d ∈ dirs (fs st) ↔
      d ∈ dirs world ∨
      d ≠ [] ∧ ∃ q, asked root processed q ∧ d = place (cwd world) q;
    inv_asked : ∀ q,
      asked root processed q →
      locate (fs st) q = Some (place (cwd world) q) ∧
      is_dir (fs st) (place (cwd world) q) = true;
    inv_records :
      Forall2 (λ j r, ∃ file_path,
                 r = job_record j file_path ∧
                 locate (fs st) file_path = Some (place (cwd world) file_path) ∧
                 files (fs st) !! place (cwd world) file_path = Some (job_source j) ∧
                 (file_path = job_target j ∨
                  ∃ counter, file_path = numbered (job_target j) counter))
              (omap (script_job root) processed) (scripts_found st);
    inv_places : NoDup (places_found world st);
    inv_files : ∀ l,
      is_Some (files (fs st) !! l) ↔
      is_Some (files world !! l) ∨ l ∈ places_found world st;
    inv_new : ∀ l, l ∈ places_found world st → files world !! l = None;
    inv_old : ∀ l content,
      files world !! l = Some content → files (fs st) !! l = Some content;
    inv_folders : ∀ d,
      d ∈ folder_structure st →
      ∃ item service_name,
        item ∈ processed ∧ demand root item = Some (service_name, d);
    inv_count :
      size (files (fs st)) = size (files world) + length (scripts_found st);
    inv_builds :
      parent_map_builds st =
      1 + length (filter (λ item : node, is_Some (item_name_of item.2)) processed)
  }.

(** ** Documents used as examples *)

(** A property element: its tag, its [name] attribute and its text. *)
Definition property (tg nm : string) (txt : option string) : Element :=
  mkElement tg [("name", nm)] txt [].

(** An [Item] of a class with the given properties and child items. *)
Definition item (cls : string) (props : list Element) (kids : list Element)
    : Element :=
  mkElement "Item" [("class", cls)] None
    (mkElement "Properties" [] None props :: kids).

Definition Name (s : string) : Element := property "string" "Name" (Some s).
Definition Source (s : string) : Element :=
  property "ProtectedString" "Source" (Some s).

(** The root element of a place file. *)
Definition roblox (kids : list Element) : Element :=
  mkElement "roblox" [("version", "4")] None kids.

(** A script directly below [Workspace]. *)
Definition foo_script : Element :=
  item "Script" [Name "Foo"; Source "print(1)"] [].
Definition workspace_item : Element :=
  item "Workspace" [Name "Workspace"] [foo_script].
Definition doc_foo : Element := roblox [workspace_item].

(** A document whose root element is itself an item named after a service. *)
Definition doc_root_service : Element := workspace_item.


(** Three module scripts, two of which have the same name. *)
Definition doc_utils : Element :=
  roblox [item "ReplicatedStorage" [Name "ReplicatedStorage"]
            [item "ModuleScript" [Name "Utils_1"; Source "return 1"] [];
             item "ModuleScript" [Name "Utils"; Source "return 2"] [];
             item "ModuleScript" [Name "Utils"; Source "return 3"] []]].

(** Two module scripts of the same name. *)
Definition doc_two_utils : Element :=
  roblox [item "ReplicatedStorage" [Name "ReplicatedStorage"]
            [item "ModuleScript" [Name "Utils"; Source "return 1"] [];
             item "ModuleScript" [Name "Utils"; Source "return 2"] []]].

(** The two marker folders of [StarterPlayer]. *)
Definition doc_starter : Element :=
  roblox [item "StarterPlayer" [Name "StarterPlayer"]
            [item "StarterPlayerScripts" [Name "StarterPlayerScripts"]
               [item "LocalScript" [Name "Move"; Source "print(1)"] []];
             item "StarterCharacterScripts" [Name "StarterCharacterScripts"]
               [item "Script" [Name "Init"; Source "print(2)"] []]]].

(** Two folders of the same name next to each other, a script in each. *)
Definition folder_A_1 : Element :=
  item "Folder" [Name "A"] [item "Script" [Name "S"; Source "print(1)"] []].
Definition folder_A_2 : Element :=
  item "Folder" [Name "A"] [item "Script" [Name "T"; Source "print(2)"] []].
Definition doc_twins : Element :=
  roblox [item "Workspace" [Name "Workspace"] [folder_A_1; folder_A_2]].

(** A script whose [Source] property is empty. *)
Definition empty_script : Element :=
  item "Script" [Name "Empty"; property "ProtectedString" "Source" None] [].
Definition doc_empty_source : Element :=
  roblox [item "Workspace" [Name "Workspace"] [empty_script]].

(** A folder named [..] below [Workspace] that holds a folder and a
    script. *)
Definition doc_dotdot : Element :=
  roblox [item "Workspace" [Name "Workspace"]
            [item "Folder" [Name ".."]
               [item "Folder" [Name "evil"] [];
                item "Script" [Name "S"; Source "print(1)"] []]]].

(** Two such folders, one in the other, and a script in the inner one. *)
Definition doc_dotdot_twice : Element :=
  roblox [item "Workspace" [Name "Workspace"]
            [item "Folder" [Name ".."]
               [item "Folder" [Name ".."]
                  [item "Script" [Name "X"; Source "print(1)"] []]]]].

(** A working directory [/home/game] that holds the place file. *)
Definition world_game : FileSystem :=
  mkFS ["home"; "game"]
       {[ ["home"]; ["home"; "game"] ]}
       {[ ["home"; "game"; "starter_platformer.rbxlx"] := "<roblox/>" ]}.

(** ** The claims of the specification, as they are worded *)

(** The path that stops above the node: the names on the way below the
    service, the node itself left out. *)
Definition names_above_node (below : list Element) : list string :=
  omap named (all_but_last below).

(** The service of the innermost element of a way that is named after one. *)
Definition nearest_service (way : list Element) : option string :=
  last (omap service_named way).


(** The file paths by rank: among the scripts with one computed path, the
    first keeps it, the second gets the counter 1, the third 2, and so on. *)
Definition paths_by_rank (targets : list fpath) : list fpath :=
  imap (λ i target,
          match length (filter (λ t, t = target) (take i targets)) with
          | O => target
          | S rank => numbered target (S rank)
          end) targets.


(** The four first-level directories. *)
Definition four_base_directories (st : State) : Prop :=
  ∀ s, ["src"; s] ∈ dirs (fs st) ↔ s ∈ ["server"; "client"; "shared"; "workspace"].

(** * Lemmas on strings *)

Lemma truthy_Some t s : Str.truthy t = Some s ↔ t = Some s ∧ s ≠ "".
Proof.
  destruct t as [[|c r]|]; simpl; split; try (intros [? ?]); try congruence;
    try (intros [= <-]; done).
Qed.

Lemma map_length f s : String.length (Str.map f s) = String.length s.
Proof. induction s; simpl; congruence. Qed.

Lemma map_get f s i : String.get i (Str.map f s) = f <$> String.get i s.
Proof.
  revert i; induction s as [|c s IH]; intros [|i]; simpl; auto.
Qed.

Example dquote_code : nat_of_ascii Str.dquote = 34.
Proof. reflexivity. Qed.

Example clean_name_path : clean_name "a/b\c:d" = "a_b_c_d".
Proof. reflexivity. Qed.

Example clean_name_unicode : clean_name "Žluťoučký <kůň>?" = "Žluťoučký _kůň__".
Proof. reflexivity. Qed.

(** * Lemmas on the document *)

Lemma Element_children_ind (P : Element → Prop) :
  (∀ t a x cs, Forall P cs → P (mkElement t a x cs)) → ∀ e, P e.
Proof.
  intros step. fix IH 1. intros [t a x cs]. apply step.
  induction cs as [|c cs IHcs]; constructor; [apply IH|exact IHcs].
Qed.

Lemma iter_from_unfold p e :
  iter_from p e =
  (p, e) :: mjoin (imap (λ i c, iter_from (p ++ [i]) c) (children e)).
Proof.
  destruct e as [t a x cs]; simpl. f_equal.
  change (λ i c, iter_from (p ++ [i]) c)
    with ((λ i c, iter_from (p ++ [i]) c) ∘ Nat.add 0).
  generalize 0 as k. induction cs as [|c cs IH]; intros k; simpl; [done|].
  rewrite Nat.add_0_r. f_equal. rewrite IH. f_equal.
  apply imap_ext. intros i y _. simpl. by rewrite Nat.add_succ_r.
Qed.

Lemma elem_of_iter_from p0 r q e :
  (q, e) ∈ iter_from p0 r ↔ ∃ p, q = p0 ++ p ∧ element_at r p = Some e.
Proof.
  revert p0 q. induction r as [t a x cs IH] using Element_children_ind.
  intros p0 q. rewrite iter_from_unfold, elem_of_cons. simpl.
  rewrite list_elem_of_join. split.
  - intros [[= -> ->]|(l & Hq & Hl)].
    + exists []. by rewrite app_nil_r.
    + apply elem_of_lookup_imap in Hl as (i & c & -> & Hc).
      rewrite Forall_lookup in IH. apply (IH _ _ Hc) in Hq as (p & -> & Hp).
      exists (i :: p). rewrite <- app_assoc. split; [done|].
      simpl. by rewrite Hc.
  - intros ([|i p] & -> & Hp); simpl in Hp.
    + left. rewrite app_nil_r. by injection Hp as <-.
    + right. destruct (cs !! i) as [c|] eqn:Hc; [|done]. simpl in Hp.
      exists (iter_from (p0 ++ [i]) c). split.
      * rewrite Forall_lookup in IH. apply (IH _ _ Hc).
        exists p. by rewrite <- app_assoc.
      * apply elem_of_lookup_imap. eauto.
Qed.

Lemma elem_of_iter root q e :
  (q, e) ∈ iter root ↔ element_at root q = Some e.
Proof.
  unfold iter. rewrite elem_of_iter_from. simpl. split.
  - by intros (p & -> & H).
  - intros H. by exists q.
Qed.

Lemma element_at_app root p q :
  element_at root (p ++ q) = element_at root p ≫= λ e, element_at e q.
Proof.
  revert root. induction p as [|i p IH]; intros root; simpl; [done|].
  destruct (children root !! i); simpl; auto.
Qed.

Lemma element_at_snoc root p i :
  element_at root (p ++ [i]) = element_at root p ≫= λ e, children e !! i.
Proof.
  rewrite element_at_app. destruct (element_at root p) as [e|]; simpl; [|done].
  by destruct (children e !! i).
Qed.

(** * Lemmas on the parent map *)

Lemma foldl_nested {A B C D : Type} (g : D → C → D) (h : A → B → C)
    (f : A → list B) m l :
  foldl (λ m a, foldl (λ m b, g m (h a b)) m (f a)) m l =
  foldl g m (l ≫= λ a, h a <$> f a).
Proof.
  revert m. induction l as [|a l IH]; intros m; simpl; [done|].
  by rewrite foldl_app, foldl_fmap, IH.
Qed.

Lemma build_parent_map_edges root :
  build_parent_map root =
  foldl (λ m (kv : loc * node), <[kv.1 := kv.2]> m) ∅ (edges root).
Proof.
  unfold build_parent_map, edges.
  by rewrite <- (foldl_nested (λ m (kv : loc * node), <[kv.1 := kv.2]> m)
                   (λ (parent child : node), (child.1, parent))).
Qed.

Lemma foldl_insert_lookup (l : list (loc * node)) (m : gmap loc node) k v :
  (∀ k v v', (k, v) ∈ l → (k, v') ∈ l → v = v') →
  (∀ k v v', (k, v) ∈ l → m !! k = Some v' → v = v') →
  foldl (λ m (kv : loc * node), <[kv.1 := kv.2]> m) m l !! k = Some v ↔
  (k, v) ∈ l ∨ m !! k = Some v.
Proof.
  revert m. induction l as [|[k0 v0] l IH]; intros m Hl Hm; simpl.
  - rewrite elem_of_nil. naive_solver.
  - rewrite IH.
    + rewrite elem_of_cons, lookup_insert. case_decide as Hk; simpl.
      * subst k0. split.
        -- intros [H|[= ->]]; [|by left; left].
           left. right. done.
        -- intros [[[= ->]|H]|H]; [by right|by left|].
           right. f_equal. eapply Hm; [left|done].
      * split; [intros [H|H]; [left; by right|by right]|].
        intros [[[= -> ->]|H]|H]; [done|by left|by right].
    + intros k' v' v'' H1 H2. eapply Hl; right; eassumption.
    + intros k' v' v'' H1. rewrite lookup_insert. case_decide as Hk.
      * subst k0. intros [= <-]. eapply Hl; [right; eassumption|left].
      * intros H2. eapply Hm; [right|]; eassumption.
Qed.

Lemma elem_of_children_of parent n :
  n ∈ children_of parent ↔
  ∃ i c, children parent.2 !! i = Some c ∧ n = (parent.1 ++ [i], c).
Proof.
  unfold children_of. rewrite elem_of_lookup_imap. naive_solver.
Qed.

Lemma elem_of_edges root q p e :
  (q, (p, e)) ∈ edges root ↔
  element_at root p = Some e ∧ ∃ i, is_Some (children e !! i) ∧ q = p ++ [i].
Proof.
  unfold edges. rewrite list_elem_of_bind. split.
  - intros ([p' e'] & H & Hin). apply elem_of_iter in Hin.
    apply list_elem_of_fmap in H as (n & [= -> -> ->] & Hn).
    apply elem_of_children_of in Hn as (i & c & Hc & ->). simpl in *.
    split; [done|]. exists i. split; [by exists c|done].
  - intros (He & i & [c Hc] & ->). exists (p, e). split.
    + apply list_elem_of_fmap. exists (p ++ [i], c). split; [done|].
      apply elem_of_children_of. by exists i, c.
    + by apply elem_of_iter.
Qed.

Lemma parent_map_lookup root q p e :
  build_parent_map root !! q = Some (p, e) ↔
  element_at root p = Some e ∧ ∃ i, is_Some (children e !! i) ∧ q = p ++ [i].
Proof.
  rewrite build_parent_map_edges, foldl_insert_lookup.
  - rewrite lookup_empty, elem_of_edges. naive_solver.
  - intros k [p1 e1] [p2 e2].
    rewrite !elem_of_edges. intros (H1 & i1 & _ & ->) (H2 & i2 & _ & Heq).
    apply app_inj_tail in Heq as [-> _]. congruence.
  - intros k v v' _. by rewrite lookup_empty.
Qed.

Lemma parent_map_child root p i c :
  element_at root (p ++ [i]) = Some c →
  ∃ e, element_at root p = Some e ∧
       build_parent_map root !! (p ++ [i]) = Some (p, e).
Proof.
  rewrite element_at_snoc. destruct (element_at root p) as [e|] eqn:He; [|done].
  simpl. intros Hc. exists e. split; [done|].
  apply parent_map_lookup. split; [done|]. exists i. split; [by exists c|done].
Qed.

Lemma parent_map_shorter root q n :
  build_parent_map root !! q = Some n → length n.1 < length q.
Proof.
  destruct n as [p e]. rewrite parent_map_lookup.
  intros (_ & i & _ & ->). rewrite length_app. simpl. lia.
Qed.

(** * Lemmas on [find_parent_service] *)

Lemma prefixes_snoc {A : Type} (p : list A) (x : A) :
  prefixes (p ++ [x]) = prefixes p ++ [p ++ [x]].
Proof.
  unfold prefixes. rewrite length_app. simpl.
  rewrite Nat.add_1_r, seq_S, fmap_app. simpl. f_equal.
  - apply list_fmap_ext. intros i n Hn. apply lookup_seq in Hn as [-> Hi].
    simpl. by rewrite take_app_le by lia.
  - by rewrite firstn_all2 by (rewrite length_app; simpl; lia).
Qed.

Lemma prefixes_nil {A : Type} : prefixes (@nil A) = [].
Proof. done. Qed.

Lemma way_down_snoc root p i c :
  element_at root (p ++ [i]) = Some c →
  way_down root (p ++ [i]) = way_down root p ++ [c].
Proof.
  intros Hc. unfold way_down. rewrite prefixes_snoc, omap_app. simpl.
  by rewrite Hc.
Qed.

Lemma way_down_last root p e :
  element_at root p = Some e → p ≠ [] →
  ∃ front, way_down root p = front ++ [e].
Proof.
  destruct p as [|i p _] using rev_ind; [done|]. intros He _.
  exists (way_down root p). by apply way_down_snoc.
Qed.

Lemma walk_up_step pm fuel p e path :
  p ≠ [] →
  walk_up pm (S fuel) (Some (p, e)) path =
  match named e with
  | Some n =>
      if decide (n ∈ service_names) then Some (Some n, reverse path)
      else walk_up pm fuel (pm !! p) (path ++ [n])
  | None => walk_up pm fuel (pm !! p) path
  end.
Proof.
  intros Hp. cbn [walk_up fst snd]. rewrite decide_False by done.
  unfold named. destruct (decide (tag e = "Item")); [|done].
  destruct (item_name_of e) as [n|]; [|done].
  destruct (decide (n ∈ service_names)); [|done].
  unfold all_but_last. by rewrite removelast_last.
Qed.

Lemma walk_up_scan root p e path fuel :
  element_at root p = Some e → length p < fuel →
  walk_up (build_parent_map root) fuel (Some (p, e)) path =
  Some (scan (reverse (way_down root p)) path).
Proof.
  revert e path fuel. induction p as [|i p IH] using rev_ind;
    intros e path [|fuel] He Hfuel; try lia.
  - done.
  - rewrite (way_down_snoc _ _ _ _ He), reverse_snoc.
    destruct (parent_map_child _ _ _ _ He) as (e' & He' & Hpm).
    rewrite length_app in Hfuel; simpl in Hfuel.
    rewrite walk_up_step by (by destruct p). rewrite Hpm.
    cbn [scan]. destruct (named e) as [n|]; [|apply IH; [done|lia]].
    destruct (decide (n ∈ service_names)); [done|apply IH; [done|lia]].
Qed.

Lemma find_parent_service_scan root p e :
  element_at root p = Some e →
  find_parent_service (p, e) root = Some (scan (reverse (way_down root p)) []).
Proof. intros He. unfold find_parent_service. apply walk_up_scan; simpl; [done|lia]. Qed.

(** The loop ends within the bound, from whatever element it starts. *)
Lemma walk_up_total root fuel current path :
  match current with Some n => length n.1 < fuel | None => 0 < fuel end →
  is_Some (walk_up (build_parent_map root) fuel current path).
Proof.
  revert current path. induction fuel as [|fuel IH]; intros current path Hf.
  { destruct current; lia. }
  destruct current as [[p e]|]; [|done]. cbn [fst] in Hf.
  destruct (decide (p = [])) as [->|Hp]; [done|].
  assert (∀ path', is_Some (walk_up (build_parent_map root) fuel
                              (build_parent_map root !! p) path')) as Hnext.
  { intros path'. apply IH.
    destruct (build_parent_map root !! p) as [n'|] eqn:Hpm.
    - apply parent_map_shorter in Hpm. lia.
    - destruct p; [done|simpl in Hf; lia]. }
  rewrite walk_up_step by done.
  destruct (named e) as [n'|]; [|apply Hnext].
  destruct (decide (n' ∈ service_names)); [done|apply Hnext].
Qed.

Lemma find_parent_service_total element root :
  is_Some (find_parent_service element root).
Proof. unfold find_parent_service. apply walk_up_total. lia. Qed.

Lemma service_named_Some e s :
  service_named e = Some s ↔ named e = Some s ∧ s ∈ service_names.
Proof.
  unfold service_named. destruct (named e) as [n|]; simpl; [|naive_solver].
  destruct (decide (n ∈ service_names)); naive_solver.
Qed.

Lemma service_named_None e :
  service_named e = None ↔ ∀ n, named e = Some n → n ∉ service_names.
Proof.
  unfold service_named. destruct (named e) as [n|]; simpl; [|naive_solver].
  destruct (decide (n ∈ service_names)); naive_solver.
Qed.

Lemma scan_no_service chain path :
  Forall (λ e, service_named e = None) chain → scan chain path = (None, []).
Proof.
  revert path. induction chain as [|e chain IH]; intros path Hall; [done|].
  apply Forall_cons in Hall as [He Hall]. simpl.
  rewrite service_named_None in He.
  destruct (named e) as [n|]; [|by apply IH].
  rewrite decide_False by (by apply He). by apply IH.
Qed.

Lemma scan_service inner svc outer s path :
  Forall (λ e, service_named e = None) inner →
  service_named svc = Some s →
  scan (inner ++ svc :: outer) path = (Some s, reverse (path ++ omap named inner)).
Proof.
  revert path. induction inner as [|e inner IH]; intros path Hall Hs; simpl.
  - apply service_named_Some in Hs as [-> Hs].
    by rewrite decide_True, app_nil_r.
  - apply Forall_cons in Hall as [He Hall]. rewrite service_named_None in He.
    destruct (named e) as [n|]; [|by apply IH].
    rewrite decide_False by (by apply He). rewrite IH by done.
    by rewrite <- app_assoc.
Qed.

Lemma omap_reverse {A B : Type} (f : A → option B) l :
  omap f (reverse l) = reverse (omap f l).
Proof.
  induction l as [|x l IH]; [done|].
  rewrite reverse_cons, omap_app, IH. simpl.
  destruct (f x); simpl; [by rewrite reverse_cons|by rewrite app_nil_r].
Qed.

Lemma find_parent_service_split root p e above svc below s :
  element_at root p = Some e →
  way_down root p = above ++ svc :: below →
  service_named svc = Some s →
  Forall (λ x, service_named x = None) below →
  find_parent_service (p, e) root = Some (Some s, omap named below).
Proof.
  intros He Hway Hs Hbelow. rewrite find_parent_service_scan by done.
  rewrite Hway, reverse_app, reverse_cons, <- app_assoc. simpl.
  rewrite (scan_service _ _ _ s) by (by rewrite ?Forall_reverse).
  simpl. by rewrite omap_reverse, reverse_involutive.
Qed.

Lemma find_parent_service_none root p e :
  element_at root p = Some e →
  Forall (λ x, service_named x = None) (way_down root p) →
  find_parent_service (p, e) root = Some (None, []).
Proof.
  intros He Hall. rewrite find_parent_service_scan by done.
  by rewrite scan_no_service by (by rewrite Forall_reverse).
Qed.

(** * Lemmas on the file system *)

Lemma elem_of_prefixes {A : Type} (p q : list A) :
  q ∈ prefixes p ↔ ∃ n, 1 ≤ n ≤ length p ∧ q = take n p.
Proof.
  unfold prefixes. rewrite list_elem_of_fmap. split.
  - intros (n & -> & Hn). apply elem_of_seq in Hn. exists n. split; [lia|done].
  - intros (n & Hn & ->). exists n. split; [done|]. apply elem_of_seq. lia.
Qed.

Lemma prefixes_length {A : Type} (p q : list A) :
  q ∈ prefixes p → 1 ≤ length q ≤ length p.
Proof.
  rewrite elem_of_prefixes. intros (n & Hn & ->). rewrite length_take. lia.
Qed.

Lemma prefixes_nonempty {A : Type} (p q : list A) : q ∈ prefixes p → q ≠ [].
Proof. intros Hq ->. apply prefixes_length in Hq. simpl in Hq. lia. Qed.

Lemma prefixes_self {A : Type} (p : list A) : p ≠ [] → p ∈ prefixes p.
Proof.
  intros Hp. apply elem_of_prefixes. exists (length p). split.
  - destruct p; [done|simpl; lia].
  - by rewrite firstn_all.
Qed.

Lemma prefixes_app_l {A : Type} (p r q : list A) :
  q ∈ prefixes p → q ∈ prefixes (p ++ r).
Proof.
  rewrite !elem_of_prefixes. intros (n & Hn & ->). exists n.
  rewrite length_app. split; [lia|]. by rewrite take_app_le by lia.
Qed.

Lemma prefixes_of_prefix {A : Type} (p d q : list A) :
  d ∈ prefixes p → q ∈ prefixes d → q ∈ prefixes p.
Proof.
  rewrite !elem_of_prefixes. intros (n & Hn & ->) (m & Hm & ->).
  rewrite length_take in Hm. exists m. split; [lia|].
  rewrite take_take. f_equal. lia.
Qed.

Lemma prefixes_Forall {A : Type} (P : A → Prop) (p q : list A) :
  Forall P p → q ∈ prefixes p → Forall P q.
Proof.
  intros Hp Hq. apply elem_of_prefixes in Hq as (n & _ & ->).
  by apply Forall_take.
Qed.

Lemma is_dir_true fs l : is_dir fs l = true ↔ l = [] ∨ l ∈ dirs fs.
Proof. unfold is_dir. by rewrite bool_decide_eq_true. Qed.

Lemma is_dir_false fs l : is_dir fs l = false ↔ l ≠ [] ∧ l ∉ dirs fs.
Proof. unfold is_dir. rewrite bool_decide_eq_false. tauto. Qed.

Lemma is_dir_mono fs fs' l :
  dirs fs ⊆ dirs fs' → is_dir fs l = true → is_dir fs' l = true.
Proof. rewrite !is_dir_true. set_solver. Qed.

Lemma is_dir_elem fs l : l ≠ [] → is_dir fs l = true → l ∈ dirs fs.
Proof. rewrite is_dir_true. by intros ? [?|?]. Qed.

Lemma is_file_true fs l : is_file fs l = true ↔ is_Some (files fs !! l).
Proof. unfold is_file. by rewrite bool_decide_eq_true. Qed.

Lemma is_file_false fs l : is_file fs l = false ↔ files fs !! l = None.
Proof.
  unfold is_file. by rewrite bool_decide_eq_false, eq_None_not_Some.
Qed.

Lemma step_plain l s : ¬ dot_segment s → step l s = l ++ [s].
Proof.
  intros Hs. unfold step. rewrite !decide_False; [done|..];
    intros ->; apply Hs; [by right|by left].
Qed.

Lemma place_snoc l p s : place l (p ++ [s]) = step (place l p) s.
Proof. unfold place. by rewrite foldl_app. Qed.

Lemma place_app l p q : place l (p ++ q) = place (place l p) q.
Proof. unfold place. by rewrite foldl_app. Qed.

Lemma place_plain l p : Forall (λ s, ¬ dot_segment s) p → place l p = l ++ p.
Proof.
  revert l. induction p as [|s p IH]; intros l Hp; [by rewrite app_nil_r|].
  apply Forall_cons in Hp as [Hs Hp]. cbn [place foldl].
  rewrite step_plain by done. fold (place (l ++ [s]) p).
  by rewrite IH, <- app_assoc.
Qed.

Lemma walk_place fs l p l' : walk fs l p = Some l' → l' = place l p.
Proof.
  revert l. induction p as [|s p IH]; intros l; cbn [walk].
  - by intros [= <-].
  - destruct (is_dir fs l); [|done]. apply IH.
Qed.

Lemma walk_mono fs fs' l p l' :
  dirs fs ⊆ dirs fs' → walk fs l p = Some l' → walk fs' l p = Some l'.
Proof.
  intros Hsub. revert l. induction p as [|s p IH]; intros l; cbn [walk]; [done|].
  destruct (is_dir fs l) eqn:Hl; [|done].
  rewrite (is_dir_mono _ _ _ Hsub Hl). apply IH.
Qed.

Lemma walk_snoc fs l p s :
  walk fs l (p ++ [s]) =
  walk fs l p ≫= λ l', if is_dir fs l' then Some (step l' s) else None.
Proof.
  revert l. induction p as [|s' p IH]; intros l; cbn [walk app mbind option_bind].
  - by destruct (is_dir fs l).
  - destruct (is_dir fs l); [apply IH|done].
Qed.

Lemma locate_place fs p l :
  locate fs p = Some l → l = place (cwd fs) p ∧ p ≠ [].
Proof.
  unfold locate. destruct p as [|s p]; [done|]. intros H.
  split; [by eapply walk_place|done].
Qed.

Lemma locate_mono fs fs' p l :
  cwd fs' = cwd fs → dirs fs ⊆ dirs fs' →
  locate fs p = Some l → locate fs' p = Some l.
Proof.
  intros Hcwd Hsub. unfold locate. destruct p as [|s p]; [done|].
  rewrite Hcwd. by apply walk_mono.
Qed.

Lemma locate_snoc fs p s :
  locate fs (p ++ [s]) =
  walk fs (cwd fs) p ≫= λ l', if is_dir fs l' then Some (step l' s) else None.
Proof.
  unfold locate. rewrite <- walk_snoc. by destruct p.
Qed.

(** An entry that is not there yet, at the end of a path, lies in the
    directory that the path leads through. *)
Lemma locate_parent fs p l :
  well_formed fs → locate fs p = Some l → is_dir fs l = false →
  is_dir fs (removelast l) = true.
Proof.
  intros [_ Hdirs _] Hloc Hl.
  destruct p as [|s p _] using rev_ind; [done|].
  rewrite locate_snoc in Hloc.
  destruct (walk fs (cwd fs) p) as [par|]; [|done]. cbn in Hloc.
  destruct (is_dir fs par) eqn:Hpar; [|done]. injection Hloc as <-.
  unfold step in *. repeat case_decide.
  - congruence.
  - apply is_dir_true in Hpar as [->|Hpar]; [done|].
    apply Hdirs in Hpar. congruence.
  - by rewrite removelast_last.
Qed.

Lemma make_dir_Done fs p fs' :
  make_dir fs p = Done fs' →
  cwd fs' = cwd fs ∧ files fs' = files fs ∧
  ∃ l, locate fs p = Some l ∧ is_dir fs' l = true ∧
       (fs' = fs ∨
        dirs fs' = {[l]} ∪ dirs fs ∧ is_dir fs l = false ∧ is_file fs l = false).
Proof.
  unfold make_dir. destruct (locate fs p) as [l|]; [|done].
  destruct (is_dir fs l) eqn:Hdir.
  - intros [= <-]. split; [done|]. split; [done|]. exists l. by eauto.
  - destruct (is_file fs l) eqn:Hfile; [done|]. intros [= <-].
    split; [done|]. split; [done|]. exists l. split; [done|]. split.
    + apply is_dir_true. right. cbn. set_solver.
    + right. done.
Qed.

Lemma make_dirs_Done fs qs fs' :
  for_each make_dir fs qs = Done fs' →
  cwd fs' = cwd fs ∧ files fs' = files fs ∧ dirs fs ⊆ dirs fs' ∧
  (∀ d, d ∈ dirs fs' →
        d ∈ dirs fs ∨ d ≠ [] ∧ ∃ q, q ∈ qs ∧ d = place (cwd fs) q) ∧
  (∀ q, q ∈ qs →
        locate fs' q = Some (place (cwd fs) q) ∧
        is_dir fs' (place (cwd fs) q) = true).
Proof.
  revert fs. induction qs as [|q qs IH]; intros fs; cbn [for_each].
  - intros [= <-]. split; [done|]. split; [done|]. split; [done|].
    split; [by left|]. intros q Hq. by apply elem_of_nil in Hq.
  - destruct (make_dir fs q) as [fs1| |] eqn:Hq; try done.
    cbn [mbind outcome_bind]. intros Hrest.
    apply make_dir_Done in Hq as (Hcwd1 & Hfiles1 & l & Hloc & Hdir & Hdirs1).
    apply IH in Hrest as (Hcwd & Hfiles & Hsub & Hnew & Hall).
    pose proof (locate_place _ _ _ Hloc) as [Hl _].
    assert (dirs fs ⊆ dirs fs1) as Hsub1.
    { destruct Hdirs1 as [->|(-> & _)]; set_solver. }
    rewrite Hcwd1 in *.
    split; [congruence|]. split; [congruence|]. split; [set_solver|]. split.
    + intros d Hd. destruct (Hnew d Hd) as [Hd1|(Hne & q' & Hq' & ->)].
      * destruct Hdirs1 as [->|(Hd' & Hnot & _)]; [by left|].
        rewrite Hd' in Hd1. apply elem_of_union in Hd1 as [Hd1|Hd1]; [|by left].
        apply elem_of_singleton in Hd1 as ->. right.
        apply is_dir_false in Hnot as [Hne _]. split; [done|]. exists q.
        split; [apply elem_of_cons; by left|done].
      * right. split; [done|]. exists q'.
        split; [apply elem_of_cons; by right|done].
    + intros q' Hq'. apply elem_of_cons in Hq' as [->|Hq']; [|by apply Hall].
      rewrite <- Hl. split.
      * apply (locate_mono fs fs'); [congruence|set_solver|done].
      * by eapply is_dir_mono.
Qed.

Lemma makedirs_Done p fs fs' :
  makedirs p fs = Done fs' →
  p ≠ [] ∧ cwd fs' = cwd fs ∧ files fs' = files fs ∧ dirs fs ⊆ dirs fs' ∧
  (∀ d, d ∈ dirs fs' →
        d ∈ dirs fs ∨ d ≠ [] ∧ ∃ q, q ∈ prefixes p ∧ d = place (cwd fs) q) ∧
  (∀ q, q ∈ prefixes p →
        locate fs' q = Some (place (cwd fs) q) ∧
        is_dir fs' (place (cwd fs) q) = true).
Proof.
  unfold makedirs. destruct p as [|s p]; [done|]. intros H.
  split; [done|]. by apply make_dirs_Done.
Qed.

(** Directories that have been made need not be made again. *)
Lemma make_dirs_again fs qs :
  (∀ q, q ∈ qs → ∃ l, locate fs q = Some l ∧ is_dir fs l = true) →
  for_each make_dir fs qs = Done fs.
Proof.
  induction qs as [|q qs IH]; intros Hall; cbn [for_each]; [done|].
  destruct (Hall q) as (l & Hloc & Hdir); [apply elem_of_cons; by left|].
  assert (make_dir fs q = Done fs) as ->
    by (unfold make_dir; by rewrite Hloc, Hdir).
  cbn [mbind outcome_bind]. apply IH. intros q' Hq'. apply Hall, elem_of_cons. by right.
Qed.

Lemma makedirs_again p fs fs' :
  makedirs p fs = Done fs' → makedirs p fs' = Done fs'.
Proof.
  intros H. apply makedirs_Done in H as (Hp & _ & _ & _ & _ & Hall).
  unfold makedirs. destruct p as [|s p]; [done|].
  apply make_dirs_again. intros q Hq. destruct (Hall q Hq). by eauto.
Qed.

Lemma well_formed_make_dir fs p fs' :
  well_formed fs → make_dir fs p = Done fs' → well_formed fs'.
Proof.
  intros Hwf H. pose proof Hwf as [Hcwd Hdirs Hfiles].
  apply make_dir_Done in H as (Hc & Hf & l & Hloc & _ & [->|(Hd & Hnot & Hnofile)]);
    [done|].
  pose proof (locate_parent _ _ _ Hwf Hloc Hnot) as Hparent.
  assert (dirs fs ⊆ dirs fs') as Hsub by (rewrite Hd; set_solver).
  split.
  - rewrite Hc. by eapply is_dir_mono.
  - intros d. rewrite Hd, elem_of_union, elem_of_singleton.
    intros [->|Hin]; (eapply is_dir_mono; [exact Hsub|]); [done|by apply Hdirs].
  - intros f. rewrite Hf. intros Hfile. destruct (Hfiles f Hfile) as [Hpar Hno].
    split; [by eapply is_dir_mono|].
    apply is_dir_false in Hno as [Hne Hno]. apply is_dir_false. split; [done|].
    rewrite Hd, elem_of_union, elem_of_singleton. intros [->|?]; [|done].
    apply is_file_false in Hnofile. rewrite Hnofile in Hfile. by destruct Hfile.
Qed.

Lemma well_formed_make_dirs fs qs fs' :
  well_formed fs → for_each make_dir fs qs = Done fs' → well_formed fs'.
Proof.
  revert fs. induction qs as [|q qs IH]; intros fs Hwf; cbn [for_each].
  - by intros [= <-].
  - destruct (make_dir fs q) as [fs1| |] eqn:Hq; try done.
    cbn [mbind outcome_bind]. apply IH. by eapply well_formed_make_dir.
Qed.

Lemma well_formed_makedirs p fs fs' :
  well_formed fs → makedirs p fs = Done fs' → well_formed fs'.
Proof.
  unfold makedirs. destruct p; [done|]. apply well_formed_make_dirs.
Qed.

Lemma write_text_Done p s fs fs' :
  write_text p s fs = Done fs' →
  ∃ l, locate fs p = Some l ∧ is_dir fs l = false ∧
       fs' = mkFS (cwd fs) (dirs fs) (<[l := s]> (files fs)).
Proof.
  unfold write_text. destruct (locate fs p) as [l|]; [|done].
  destruct (is_dir fs l) eqn:Hdir; [done|]. intros [= <-]. by exists l.
Qed.

Lemma well_formed_write fs p l s :
  well_formed fs → locate fs p = Some l → is_dir fs l = false →
  well_formed (mkFS (cwd fs) (dirs fs) (<[l := s]> (files fs))).
Proof.
  intros Hwf Hloc Hnot. pose proof (locate_parent _ _ _ Hwf Hloc Hnot) as Hparent.
  destruct Hwf as [Hcwd Hdirs Hfiles]. split; [done|done|].
  intros f. cbn [files]. rewrite lookup_insert. case_decide as Heq.
  - subst f. done.
  - apply Hfiles.
Qed.

Lemma path_exists_true fs p :
  path_exists fs p = true ↔
  ∃ l, locate fs p = Some l ∧ (is_dir fs l = true ∨ is_Some (files fs !! l)).
Proof.
  unfold path_exists. destruct (locate fs p) as [l|].
  - rewrite orb_true_iff, is_file_true. naive_solver.
  - naive_solver.
Qed.

Lemma path_exists_false fs p l :
  path_exists fs p = false → locate fs p = Some l →
  is_dir fs l = false ∧ files fs !! l = None.
Proof.
  unfold path_exists. intros H Hloc. rewrite Hloc in H.
  apply orb_false_iff in H as [? ?]. by rewrite <- is_file_false.
Qed.

(** In a directory that is not there nothing is found. *)
Lemma entry_parent fs l :
  well_formed fs → l ≠ [] →
  is_dir fs l = true ∨ is_Some (files fs !! l) →
  is_dir fs (removelast l) = true.
Proof.
  intros [_ Hdirs Hfiles] Hne [Hd|Hf].
  - apply Hdirs. by apply is_dir_elem.
  - by apply Hfiles.
Qed.

Lemma entry_ancestor fs l r :
  well_formed fs →
  is_dir fs (l ++ r) = true ∨ is_Some (files fs !! (l ++ r)) →
  r ≠ [] → is_dir fs l = true.
Proof.
  intros Hwf. induction r as [|s r IH] using rev_ind; [done|].
  intros Hentry _.
  assert (is_dir fs (l ++ r) = true) as Hpar.
  { apply (entry_parent fs (l ++ r ++ [s])) in Hentry; [|done|by destruct l, r].
    by rewrite app_assoc, removelast_last in Hentry. }
  destruct r as [|s' r]; [by rewrite app_nil_r in Hpar|].
  apply IH; [by left|done].
Qed.

Lemma walk_to_entry fs l p :
  well_formed fs → Forall (λ s, ¬ dot_segment s) p → p ≠ [] →
  is_dir fs (l ++ p) = true ∨ is_Some (files fs !! (l ++ p)) →
  walk fs l p = Some (l ++ p).
Proof.
  intros Hwf. revert l. induction p as [|s p IH]; intros l Hp Hne Hentry; [done|].
  apply Forall_cons in Hp as [Hs Hp]. cbn [walk].
  rewrite (entry_ancestor fs l (s :: p)) by done.
  rewrite step_plain by done.
  destruct p as [|s' p]; [done|].
  rewrite IH; [by rewrite <- app_assoc|done|done|by rewrite <- app_assoc].
Qed.

(** For a path without [.] and [..], to exist is to be an entry at the place
    that the path spells out. *)
Lemma path_exists_plain fs p :
  well_formed fs → Forall (λ s, ¬ dot_segment s) p → p ≠ [] →
  path_exists fs p = is_dir fs (cwd fs ++ p) || is_file fs (cwd fs ++ p).
Proof.
  intros Hwf Hp Hne. unfold path_exists.
  destruct (locate fs p) as [l|] eqn:Hloc.
  - apply locate_place in Hloc as [-> _]. by rewrite place_plain.
  - symmetry. apply not_true_is_false. intros Hentry.
    apply orb_true_iff in Hentry. rewrite is_file_true in Hentry.
    apply (walk_to_entry fs (cwd fs) p Hwf Hp Hne) in Hentry.
    unfold locate in Hloc. destruct p; [done|]. congruence.
Qed.

Lemma on_last_snoc f (d : fpath) s : on_last f (d ++ [s]) = d ++ [f s].
Proof. unfold on_last. by rewrite reverse_snoc, reverse_involutive. Qed.

Lemma string_app_length s t :
  String.length (s +:+ t) = String.length s + String.length t.
Proof. induction s; simpl; [done|]. f_equal. done. Qed.

Lemma string_app_inj_r s1 s2 t : s1 +:+ t = s2 +:+ t → s1 = s2.
Proof.
  revert s2. induction s1 as [|c s1 IH]; intros [|c' s2] H.
  - done.
  - apply (f_equal String.length) in H.
    rewrite !string_app_length in H. simpl in H. lia.
  - apply (f_equal String.length) in H.
    rewrite !string_app_length in H. simpl in H. lia.
  - injection H as -> H. f_equal. by apply IH.
Qed.

Lemma chop_app s t : chop (String.length t) (s +:+ t) = s.
Proof.
  unfold chop. rewrite string_app_length.
  replace (String.length s + String.length t - String.length t)
    with (String.length s) by lia.
  induction s as [|c s IH]; simpl.
  - by destruct t.
  - by rewrite IH.
Qed.

Lemma numbered_snoc dir s counter :
  numbered (dir ++ [s]) counter =
  dir ++ [chop 4 s +:+ "_" +:+ pretty counter +:+ ".lua"].
Proof. unfold numbered, suffixed. by rewrite !on_last_snoc. Qed.

(** What an alternative name looks like. *)
Lemma numbered_lua dir stem counter :
  numbered (dir ++ [stem +:+ ".lua"]) counter =
  dir ++ [stem +:+ "_" +:+ pretty counter +:+ ".lua"].
Proof.
  rewrite numbered_snoc. pose proof (chop_app stem ".lua") as H.
  cbn [String.length] in H. by rewrite H.
Qed.

Lemma numbered_inj file_path c1 c2 :
  file_path ≠ [] → numbered file_path c1 = numbered file_path c2 → c1 = c2.
Proof.
  destruct file_path as [|s dir _] using rev_ind; [done|]. intros _.
  rewrite !numbered_snoc. intros H. apply app_inj_tail in H as [_ H].
  apply (inj (String.app _)), (inj (String.app _)) in H.
  apply string_app_inj_r in H. by apply (inj pretty) in H.
Qed.

Lemma numbered_length file_path c :
  length (numbered file_path c) = length file_path.
Proof.
  destruct file_path as [|s dir _] using rev_ind; [done|].
  by rewrite numbered_snoc, !length_app.
Qed.

Lemma dirname_snoc (d : fpath) s : dirname (d ++ [s]) = d.
Proof. unfold dirname. by rewrite removelast_last. Qed.

Lemma numbered_dirname file_path c :
  dirname (numbered file_path c) = dirname file_path.
Proof.
  destruct file_path as [|s dir _] using rev_ind; [done|].
  by rewrite numbered_snoc, !dirname_snoc.
Qed.

Lemma first_free_Some fs file_path fuel c k :
  first_free fs (on_last (chop 4) file_path) fuel c = Some k →
  c ≤ k ∧ path_exists fs (numbered file_path k) = false ∧
  ∀ c', c ≤ c' < k → path_exists fs (numbered file_path c') = true.
Proof.
  revert c. induction fuel as [|fuel IH]; intros c; simpl; [done|].
  fold (numbered file_path c).
  destruct (path_exists fs (numbered file_path c)) eqn:Hc.
  - intros H. apply IH in H as (Hle & Hk & Hbelow). split; [lia|].
    split; [done|]. intros c' Hc'.
    destruct (decide (c' = c)) as [->|]; [done|]. apply Hbelow. lia.
  - intros [= <-]. split; [done|]. split; [done|]. intros c'. lia.
Qed.

Lemma first_free_None fs file_path fuel c :
  first_free fs (on_last (chop 4) file_path) fuel c = None →
  ∀ c', c ≤ c' < c + fuel → path_exists fs (numbered file_path c') = true.
Proof.
  revert c. induction fuel as [|fuel IH]; intros c; simpl; [intros; lia|].
  fold (numbered file_path c).
  destruct (path_exists fs (numbered file_path c)) eqn:Hc; [|done].
  intros H c' Hc'. destruct (decide (c' = c)) as [->|]; [done|].
  apply (IH _ H). lia.
Qed.

Lemma lua_name_plain stem : ¬ dot_segment (stem +:+ ".lua").
Proof.
  intros [H|H]; apply (f_equal String.length) in H;
    rewrite !string_app_length in H; simpl in H; lia.
Qed.

Lemma numbered_name_plain s (counter : nat) :
  ¬ dot_segment (chop 4 s +:+ "_" +:+ pretty counter +:+ ".lua").
Proof.
  intros [H|H]; apply (f_equal String.length) in H;
    rewrite !string_app_length in H; simpl in H; lia.
Qed.

(** What exists under an alternative name is an entry of the directory that
    the path leads through. *)
Lemma path_exists_numbered fs dir s counter :
  path_exists fs (numbered (dir ++ [s]) counter) = true →
  ∃ par, walk fs (cwd fs) dir = Some par ∧
         let l := par ++ [chop 4 s +:+ "_" +:+ pretty counter +:+ ".lua"] in
         l ∈ dirs fs ∨ is_Some (files fs !! l).
Proof.
  rewrite numbered_snoc, path_exists_true. intros (l & Hloc & Hentry).
  rewrite locate_snoc in Hloc.
  destruct (walk fs (cwd fs) dir) as [par|]; [|done]. cbn in Hloc.
  destruct (is_dir fs par); [|done]. injection Hloc as <-.
  rewrite step_plain in Hentry by apply numbered_name_plain.
  exists par. split; [done|]. cbn zeta.
  destruct Hentry as [Hd|?]; [left|by right].
  apply is_dir_elem; [by destruct par|done].
Qed.

(** A file system with [n] entries does not hold [n + 1] different names. *)
Lemma first_free_total fs file_path c :
  file_path ≠ [] →
  is_Some (first_free fs (on_last (chop 4) file_path)
             (S (size (dirs fs) + size (files fs))) c).
Proof.
  intros Hne.
  destruct (first_free _ _ _ c) as [k|] eqn:Hfree; [by eexists|exfalso].
  pose proof (first_free_None _ _ _ _ Hfree) as Hall.
  set (fuel := S (size (dirs fs) + size (files fs))) in *.
  destruct file_path as [|s dir _] using rev_ind; [done|].
  destruct (path_exists_numbered fs dir s c) as (par & Hpar & _);
    [apply Hall; unfold fuel; lia|].
  set (names := (λ c', par ++ [chop 4 s +:+ "_" +:+ pretty c' +:+ ".lua"])
                  <$> seq c fuel).
  assert (NoDup names) as Hnd.
  { apply NoDup_fmap_2_strong; [|apply NoDup_seq].
    intros c1 c2 _ _ H. apply app_inj_tail in H as [_ H].
    apply (inj (String.app _)), (inj (String.app _)) in H.
    apply string_app_inj_r in H. by apply (inj pretty) in H. }
  assert (list_to_set names ⊆ dirs fs ∪ dom (files fs)) as Hsub.
  { intros q Hq. apply elem_of_list_to_set, list_elem_of_fmap in Hq as (c' & -> & Hc').
    apply elem_of_seq in Hc'. specialize (Hall c' ltac:(lia)).
    apply path_exists_numbered in Hall as (par' & Hpar' & Hentry).
    rewrite Hpar in Hpar'. injection Hpar' as <-.
    rewrite elem_of_union, elem_of_dom. done. }
  apply subseteq_size in Hsub.
  rewrite size_list_to_set in Hsub by done.
  unfold names in Hsub. rewrite length_fmap, length_seq in Hsub.
  pose proof (size_union_alt (dirs fs) (dom (files fs))) as Hu.
  assert (size (dom (files fs) ∖ dirs fs) ≤ size (dom (files fs))) as Hd
    by (apply subseteq_size; set_solver).
  rewrite size_dom in Hd. unfold fuel in Hsub. lia.
Qed.

Lemma resolve_duplicate_Done fs file_path p :
  resolve_duplicate fs file_path = Done p →
  path_exists fs p = false ∧
  (path_exists fs file_path = false ∧ p = file_path ∨
   path_exists fs file_path = true ∧
   ∃ c, 1 ≤ c ∧ p = numbered file_path c ∧
        ∀ c', 1 ≤ c' < c → path_exists fs (numbered file_path c') = true).
Proof.
  unfold resolve_duplicate.
  destruct (path_exists fs file_path) eqn:Hex.
  - destruct (first_free _ _ _ 1) as [k|] eqn:Hfree; [|done].
    intros [= <-]. apply first_free_Some in Hfree as (Hle & Hk & Hbelow).
    split; [done|]. right. split; [done|]. by exists k.
  - intros [= <-]. split; [done|]. by left.
Qed.

Lemma resolve_duplicate_total fs file_path :
  file_path ≠ [] → resolve_duplicate fs file_path ≠ OutOfFuel.
Proof.
  intros Hne. unfold resolve_duplicate.
  destruct (path_exists fs file_path); [|done].
  by destruct (first_free_total fs file_path 1 Hne) as [k ->].
Qed.

(** * Lemmas on the loop body *)

Lemma walk_up_in_names pm fuel current path s path' :
  walk_up pm fuel current path = Some (Some s, path') → s ∈ service_names.
Proof.
  revert current path. induction fuel as [|fuel IH]; intros current path; [done|].
  destruct current as [[p e]|]; [|done].
  destruct (decide (p = [])) as [->|Hp]; [done|].
  rewrite walk_up_step by done.
  destruct (named e) as [n|]; [|apply IH].
  destruct (decide (n ∈ service_names)); [|apply IH].
  by intros [= <- _].
Qed.

Lemma find_parent_service_in_names element root s path :
  find_parent_service element root = Some (Some s, path) → s ∈ service_names.
Proof. apply walk_up_in_names. Qed.

Lemma service_base_dir s :
  s ∈ service_names →
  ∃ tagname, assoc s service_mapping = Some ["src"; tagname] ∧
             tagname ∈ ["server"; "client"; "shared"; "workspace"].
Proof.
  unfold service_names. rewrite !elem_of_cons, elem_of_nil.
  intros [->|[->|[->|[->|[->|[->|[]]]]]]]; eexists; (split; [reflexivity|]);
    set_solver.
Qed.

Lemma script_target_shape base name path :
  ∃ rest stem,
    script_target base name path =
    (match rest with [] => None | _ :: _ => Some (base ++ rest) end,
     (base ++ rest) ++ [stem +:+ ".lua"]).
Proof.
  unfold script_target, join. destruct path as [|seg path].
  - exists [], (clean_name name). by rewrite app_nil_r.
  - set (folder_parts := clean_name <$> all_but_last (seg :: path)).
    exists folder_parts, (clean_name (List.last (seg :: path) "")).
    destruct folder_parts; [by rewrite app_nil_r|done].
Qed.

Lemma resolved_Some r s path :
  resolved r = Some (s, path) ↔ r = Some (Some s, path).
Proof.
  unfold resolved. destruct r as [[[s'|] path']|]; cbn; naive_solver.
Qed.

Lemma script_job_Some root item j :
  script_job root item = Some j ↔
  get "class" item.2 = Some (job_class j) ∧ job_class j ∈ script_classes ∧
  item_name_of item.2 = Some (job_name j) ∧
  find_parent_service item root = Some (Some (job_service j), job_path j) ∧
  source_of item.2 = Some (job_source j).
Proof.
  unfold script_job. destruct j as [cls name svc path source]. cbn [job_class
    job_name job_service job_path job_source].
  destruct (get "class" item.2) as [cls'|]; cbn [mbind option_bind]; [|naive_solver].
  destruct (decide (cls' ∈ script_classes)); [|naive_solver].
  destruct (item_name_of item.2) as [name'|]; cbn [mbind option_bind]; [|naive_solver].
  destruct (resolved (find_parent_service item root)) as [[sv pth]|] eqn:Hres;
    cbn [mbind option_bind].
  - apply resolved_Some in Hres. rewrite Hres.
    destruct (source_of item.2) as [source'|]; cbn [mbind option_bind fst snd];
      naive_solver.
  - split; [done|]. intros (_ & _ & _ & Hfind & _).
    apply resolved_Some in Hfind. congruence.
Qed.

Lemma not_folder_script_class : "Folder" ∉ script_classes.
Proof. unfold script_classes. set_solver. Qed.

Lemma script_target_dirname base name path :
  dirname (script_target base name path).2 =
  base ++ (clean_name <$> all_but_last path).
Proof.
  unfold script_target, join. destruct path as [|seg path].
  - cbn [snd]. rewrite dirname_snoc. cbn. by rewrite app_nil_r.
  - destruct (clean_name <$> all_but_last (seg :: path)) eqn:Hparts; cbn [snd].
    + rewrite dirname_snoc. by rewrite app_nil_r.
    + by rewrite dirname_snoc.
Qed.

(** The operations on the file system that a round of the loop performs. *)
Lemma handle_script_trace st item cls name svc base path st' source :
  source_of item.2 = Some source →
  handle_script st item cls name svc base path = Done st' →
  let path' := starter_player_rule svc path in
  ∃ fs1 fs2 file_path,
    match (script_target base name path').1 with
    | Some folder_path =>
        makedirs folder_path (fs st) = Done fs1 ∧
        folder_structure st' =
          {[dirname (script_target base name path').2]} ∪ folder_structure st
    | None => fs1 = fs st ∧ folder_structure st' = folder_structure st
    end ∧
    resolve_duplicate fs1 (script_target base name path').2 = Done file_path ∧
    makedirs (dirname file_path) fs1 = Done fs2 ∧
    write_text file_path source fs2 = Done (fs st') ∧
    scripts_found st' =
      scripts_found st ++
        [mkScriptInfo name cls file_path svc (String.concat "/" (svc :: path'))] ∧
    parent_map_builds st' = parent_map_builds st.
Proof.
  intros Hsource. unfold handle_script. rewrite Hsource. cbn zeta.
  destruct (script_target base name (starter_player_rule svc path))
    as [folder target]. cbn [fst snd].
  destruct folder as [folder_path|]; cbn [mbind outcome_bind].
  - destruct (makedirs folder_path (fs st)) as [fs1| |] eqn:H1; try done.
    cbn [mbind outcome_bind].
    destruct (resolve_duplicate fs1 target) as [file_path| |] eqn:H2; try done.
    cbn [mbind outcome_bind].
    destruct (makedirs (dirname file_path) fs1) as [fs2| |] eqn:H3; try done.
    cbn [mbind outcome_bind].
    destruct (write_text file_path source fs2) as [fs3| |] eqn:H4; try done.
    cbn [mbind outcome_bind]. intros [= <-]. by exists fs1, fs2, file_path.
  - destruct (resolve_duplicate (fs st) target) as [file_path| |] eqn:H2; try done.
    cbn [mbind outcome_bind].
    destruct (makedirs (dirname file_path) (fs st)) as [fs2| |] eqn:H3; try done.
    cbn [mbind outcome_bind].
    destruct (write_text file_path source fs2) as [fs3| |] eqn:H4; try done.
    cbn [mbind outcome_bind]. intros [= <-]. by exists (fs st), fs2, file_path.
Qed.

Lemma handle_folder_trace st base path st' :
  handle_folder st base path = Done st' →
  match path with
  | [] => st' = st
  | _ :: _ =>
      makedirs (join base (clean_name <$> path)) (fs st) = Done (fs st') ∧
      folder_structure st' =
        {[join base (clean_name <$> path)]} ∪ folder_structure st
  end.
Proof.
  unfold handle_folder. destruct path as [|seg path]; [by intros [= <-]|].
  destruct (makedirs _ (fs st)) as [fs1| |]; try done.
  cbn [mbind outcome_bind]. by intros [= <-].
Qed.

Lemma path_exists_after_makedirs fs dir fs' x :
  well_formed fs → makedirs dir fs = Done fs' →
  Forall (λ s, ¬ dot_segment s) dir → ¬ dot_segment x →
  path_exists fs' (dir ++ [x]) = path_exists fs (dir ++ [x]).
Proof.
  intros Hwf Hmk Hdir Hx.
  pose proof (well_formed_makedirs _ _ _ Hwf Hmk) as Hwf'.
  apply makedirs_Done in Hmk as (_ & Hcwd & Hfiles & Hsub & Hnew & _).
  assert (Forall (λ s, ¬ dot_segment s) (dir ++ [x])) as Hplain
    by (apply Forall_app; split; [done|by constructor]).
  rewrite !path_exists_plain by (done || by destruct dir).
  rewrite Hcwd. unfold is_file. rewrite Hfiles. f_equal.
  apply eq_true_iff_eq. rewrite !is_dir_true. split; [|set_solver].
  intros [?|Hd]; [by left|]. right.
  destruct (Hnew _ Hd) as [?|(_ & q & Hq & Heq)]; [done|exfalso].
  rewrite place_plain in Heq by (by apply (prefixes_Forall _ dir)).
  apply app_inv_head in Heq. subst q. apply prefixes_length in Hq.
  rewrite length_app in Hq. simpl in Hq. lia.
Qed.

Lemma allocated_after_makedirs fs dir fs' stem file_path :
  well_formed fs → makedirs dir fs = Done fs' →
  Forall (λ s, ¬ dot_segment s) dir →
  allocated fs' (dir ++ [stem +:+ ".lua"]) file_path ↔
  allocated fs (dir ++ [stem +:+ ".lua"]) file_path.
Proof.
  intros Hwf Hmk Hdir.
  assert (∀ x, ¬ dot_segment x →
               path_exists fs' (dir ++ [x]) = path_exists fs (dir ++ [x])) as Hsame
    by (intros; by eapply path_exists_after_makedirs).
  assert (∀ c, path_exists fs' (numbered (dir ++ [stem +:+ ".lua"]) c) =
               path_exists fs (numbered (dir ++ [stem +:+ ".lua"]) c)) as Hnum.
  { intros c. rewrite numbered_snoc. apply Hsame, numbered_name_plain. }
  unfold allocated. rewrite (Hsame _ (lua_name_plain stem)).
  split.
  - intros [Hfree [[? ->]|(? & c & ? & -> & Hbelow)]].
    + split; [by rewrite <- Hsame by apply lua_name_plain|by left].
    + split; [by rewrite <- Hnum|]. right. split; [done|]. exists c.
      split; [done|]. split; [done|]. intros c' Hc'. rewrite <- Hnum. by apply Hbelow.
  - intros [Hfree [[? ->]|(? & c & ? & -> & Hbelow)]].
    + split; [by rewrite Hsame by apply lua_name_plain|by left].
    + split; [by rewrite Hnum|]. right. split; [done|]. exists c.
      split; [done|]. split; [done|]. intros c' Hc'. rewrite Hnum. by apply Hbelow.
Qed.

Lemma allocated_dirname fs target file_path :
  allocated fs target file_path → dirname file_path = dirname target.
Proof.
  intros [_ [[_ ->]|(_ & c & _ & -> & _)]]; [done|apply numbered_dirname].
Qed.

(** What the round for a script does when it ends normally: the directory
    of the file is made, a free path is chosen in it, and the text is written
    to a new file there. *)
Lemma handle_script_Done st item cls name svc base path st' :
  well_formed (fs st) → Forall (λ s, ¬ dot_segment s) base →
  handle_script st item cls name svc base path = Done st' →
  match source_of item.2 with
  | None => st' = st
  | Some source =>
      let target := (script_target base name (starter_player_rule svc path)).2 in
      let l file_path := place (cwd (fs st)) file_path in
      ∃ ready file_path,
        makedirs (dirname target) (fs st) = Done ready ∧
        allocated ready target file_path ∧
        locate ready file_path = Some (l file_path) ∧
        is_dir ready (l file_path) = false ∧
        files (fs st) !! l file_path = None ∧
        fs st' = mkFS (cwd (fs st)) (dirs ready)
                      (<[l file_path := source]> (files (fs st))) ∧
        scripts_found st' =
          scripts_found st ++
            [mkScriptInfo name cls file_path svc
               (String.concat "/" (svc :: starter_player_rule svc path))] ∧
        (folder_structure st' = folder_structure st ∨
         folder_structure st' = {[dirname target]} ∪ folder_structure st) ∧
        parent_map_builds st' = parent_map_builds st
  end.
Proof.
  intros Hwf Hbase Hrun.
  destruct (source_of item.2) as [source|] eqn:Hsource.
  2:{ unfold handle_script in Hrun. rewrite Hsource in Hrun. by injection Hrun. }
  apply (handle_script_trace _ _ _ _ _ _ _ _ _ Hsource) in Hrun. cbn zeta in *.
  destruct (script_target_shape base name (starter_player_rule svc path))
    as (rest & stem & Hshape).
  rewrite Hshape in *. cbn [fst snd] in *.
  set (dir := base ++ rest) in *. set (target := dir ++ [stem +:+ ".lua"]) in *.
  destruct Hrun as (fs1 & fs2 & file_path & Hfolder & Hres & Hmk2 & Hwrite &
                    Hfound & Hbuilds).
  apply resolve_duplicate_Done in Hres. fold (allocated fs1 target file_path) in Hres.
  pose proof (allocated_dirname _ _ _ Hres) as Hdir.
  assert (dirname target = dir) as Hdt by (unfold target; by rewrite dirname_snoc).
  rewrite Hdt in *. rewrite Hdir in Hmk2.
  assert (makedirs dir (fs st) = Done fs2 ∧ allocated fs2 target file_path ∧
          (folder_structure st' = folder_structure st ∨
           folder_structure st' = {[dir]} ∪ folder_structure st))
    as (Hready & Halloc & Hfst).
  { destruct rest as [|r rest].
    - destruct Hfolder as [-> Hfst]. subst target dir. rewrite app_nil_r in *.
      split; [done|]. split; [|by left].
      by apply (allocated_after_makedirs (fs st) base fs2 stem file_path).
    - destruct Hfolder as [Hmk1 Hfst].
      pose proof (makedirs_again _ _ _ Hmk1) as Hagain.
      rewrite Hagain in Hmk2. injection Hmk2 as <-.
      split; [done|]. split; [done|]. by right. }
  apply write_text_Done in Hwrite as (l & Hloc & Hnot & Hfs).
  pose proof (locate_place _ _ _ Hloc) as [Hl _].
  apply makedirs_Done in Hready as Hm. destruct Hm as (_ & Hcwd & Hfiles & _).
  rewrite Hcwd in Hl. subst l. rewrite Hcwd, Hfiles in Hfs.
  destruct Halloc as [Hfree Halloc'].
  pose proof (path_exists_false _ _ _ Hfree Hloc) as [_ Hnone].
  rewrite Hfiles in Hnone.
  exists fs2, file_path. split; [done|]. split; [by split|]. done.
Qed.

Lemma base_dir_plain tagname :
  tagname ∈ ["server"; "client"; "shared"; "workspace"] →
  Forall (λ s, ¬ dot_segment s) ["src"; tagname].
Proof.
  intros Hin. repeat constructor; unfold dot_segment; [by intros [?|?]|].
  set_solver.
Qed.

(** What one round of the loop does when it ends normally. *)
Lemma process_item_Done root st item st' :
  well_formed (fs st) →
  process_item root st item = Done st' →
  parent_map_builds st' =
    parent_map_builds st + (if item_name_of item.2 is Some _ then 1 else 0) ∧
  match script_job root item with
  | Some j =>
      let l file_path := place (cwd (fs st)) file_path in
      ∃ ready file_path,
        makedirs (dirname (job_target j)) (fs st) = Done ready ∧
        allocated ready (job_target j) file_path ∧
        locate ready file_path = Some (l file_path) ∧
        is_dir ready (l file_path) = false ∧
        files (fs st) !! l file_path = None ∧
        fs st' = mkFS (cwd (fs st)) (dirs ready)
                      (<[l file_path := job_source j]> (files (fs st))) ∧
        scripts_found st' = scripts_found st ++ [job_record j file_path] ∧
        (folder_structure st' = folder_structure st ∨
         folder_structure st' =
           {[dirname (job_target j)]} ∪ folder_structure st)
  | None =>
      scripts_found st' = scripts_found st ∧
      match folder_job root item with
      | Some (_, dir) =>
          makedirs dir (fs st) = Done (fs st') ∧
          folder_structure st' = {[dir]} ∪ folder_structure st
      | None => fs st' = fs st ∧ folder_structure st' = folder_structure st
      end
  end.
Proof.
  intros Hwf. unfold process_item, script_job, folder_job.
  destruct (item_name_of item.2) as [name|] eqn:Hname; cbn [mbind option_bind].
  2:{ intros [= <-]. split; [lia|].
      destruct (get "class" item.2) as [cls|]; cbn [mbind option_bind]; [|done].
      by repeat case_decide. }
  destruct (find_parent_service item root) as [[service path]|] eqn:Hfind; [|done].
  destruct service as [s|]; cbn [mbind option_bind resolved fmap option_fmap option_map].
  2:{ intros [= <-]. cbn. split; [lia|].
      destruct (get "class" item.2) as [cls|]; cbn [mbind option_bind]; [|done].
      by repeat case_decide. }
  pose proof (find_parent_service_in_names _ _ _ _ Hfind) as Hs.
  destruct (service_base_dir s Hs) as (tagname & Hbase & Htag).
  rewrite Hbase. cbn [fmap option_fmap option_map fst snd].
  destruct (get "class" item.2) as [cls|]; cbn [mbind option_bind].
  2:{ intros [= <-]. cbn. split; [lia|done]. }
  destruct (decide (cls ∈ script_classes)) as [Hcls|Hcls].
  - intros H. apply handle_script_Done in H; [|done|by apply base_dir_plain].
    cbn [fs scripts_found parent_map_builds folder_structure] in H.
    destruct (source_of item.2) as [source|]; cbn [mbind option_bind].
    + cbn zeta in H.
      destruct H as (ready & file_path & Hmk & Halloc & Hloc & Hnot & Hnone & Hfs &
                     Hfound & Hfst & Hbuilds).
      split; [lia|]. exists ready, file_path.
      unfold job_target, job_record, base_dir_of. cbn [job_service job_name job_path
        job_class job_source]. rewrite Hbase. done.
    + subst st'. cbn. split; [lia|]. split; [done|].
      rewrite decide_False; [done|]. intros ->. by apply not_folder_script_class.
  - destruct (decide (cls = "Folder")) as [->|Hfolder].
    + intros H. pose proof H as Hfields. apply handle_folder_trace in H.
      cbn [fs scripts_found parent_map_builds folder_structure] in *.
      unfold handle_folder in Hfields. unfold base_dir_of. rewrite Hbase.
      destruct path as [|seg path].
      * subst st'. cbn. split; [lia|done].
      * destruct H as [Hmk Hfst]. cbn [fs] in Hfields. rewrite Hmk in Hfields.
        cbn [mbind outcome_bind] in Hfields. injection Hfields as <-. cbn.
        cbn in Hmk. split; [lia|done].
    + intros [= <-]. cbn. split; [lia|done].
Qed.

Lemma make_dir_within_fuel fs p : make_dir fs p ≠ OutOfFuel.
Proof.
  unfold make_dir. destruct (locate fs p) as [l|]; [|done].
  destruct (is_dir fs l); [done|]. by destruct (is_file fs l).
Qed.

Lemma makedirs_within_fuel p fs : makedirs p fs ≠ OutOfFuel.
Proof.
  unfold makedirs. destruct p as [|s p]; [done|].
  generalize (prefixes (s :: p)). intros qs. revert fs.
  induction qs as [|q qs IH]; intros fs; cbn [for_each]; [done|].
  pose proof (make_dir_within_fuel fs q).
  destruct (make_dir fs q); cbn [mbind outcome_bind]; done.
Qed.

Lemma write_text_within_fuel p s fs : write_text p s fs ≠ OutOfFuel.
Proof.
  unfold write_text. destruct (locate fs p) as [l|]; [|done].
  by destruct (is_dir fs l).
Qed.

Lemma handle_script_within_fuel st item cls name svc base path :
  handle_script st item cls name svc base path ≠ OutOfFuel.
Proof.
  unfold handle_script. destruct (source_of item.2) as [source|]; [|done].
  destruct (script_target_shape base name (starter_player_rule svc path))
    as (rest & stem & ->).
  set (target := (base ++ rest) ++ [stem +:+ ".lua"]).
  assert (target ≠ []) as Hne by (unfold target; by destruct (base ++ rest)).
  assert (∀ fs1 fst1,
    (resolve_duplicate fs1 target ≫= λ file_path,
       makedirs (dirname file_path) fs1 ≫= λ fs2,
       write_text file_path source fs2 ≫= λ fs3,
       Done (mkState fs3
               (scripts_found st ++
                  [mkScriptInfo name cls file_path svc
                     (String.concat "/" (svc :: starter_player_rule svc path))])
               fst1 (parent_map_builds st))) ≠ OutOfFuel) as Hrest.
  { intros fs1 fst1.
    pose proof (resolve_duplicate_total fs1 target Hne) as Hres.
    destruct (resolve_duplicate fs1 target) as [file_path| |]; try done.
    cbn [mbind outcome_bind].
    pose proof (makedirs_within_fuel (dirname file_path) fs1).
    destruct (makedirs (dirname file_path) fs1) as [fs2| |]; try done.
    cbn [mbind outcome_bind].
    pose proof (write_text_within_fuel file_path source fs2).
    by destruct (write_text file_path source fs2). }
  destruct rest as [|r rest]; [apply Hrest|].
  pose proof (makedirs_within_fuel (base ++ r :: rest) (fs st)).
  destruct (makedirs (base ++ r :: rest) (fs st)) as [fs1| |]; try done.
  apply Hrest.
Qed.

Lemma handle_folder_within_fuel st base path :
  handle_folder st base path ≠ OutOfFuel.
Proof.
  unfold handle_folder. destruct path as [|seg path]; [done|].
  pose proof (makedirs_within_fuel (join base (clean_name <$> seg :: path)) (fs st)).
  by destruct (makedirs _ (fs st)).
Qed.

(** The bounds on the loops of the model are never reached. *)
Lemma process_item_within_fuel root st item :
  process_item root st item ≠ OutOfFuel.
Proof.
  unfold process_item.
  destruct (item_name_of item.2) as [name|]; [|done].
  destruct (find_parent_service_total item root) as [[service path] ->].
  destruct (service ≫= _) as [[s base]|]; [|done].
  destruct (get "class" item.2) as [cls|]; [|done].
  destruct (decide (cls ∈ script_classes)); [apply handle_script_within_fuel|].
  destruct (decide (cls = "Folder")); [apply handle_folder_within_fuel|done].
Qed.

Lemma for_each_within_fuel root st items :
  for_each (process_item root) st items ≠ OutOfFuel.
Proof.
  revert st. induction items as [|item items IH]; intros st; [done|].
  cbn [for_each]. pose proof (process_item_within_fuel root st item).
  destruct (process_item root st item); cbn [mbind outcome_bind]; done.
Qed.

(** * The invariant of the loop over the items *)

Lemma for_each_snoc {A S : Type} (body : S → A → outcome S) st items item :
  for_each body st (items ++ [item]) =
  for_each body st items ≫= λ st', body st' item.
Proof.
  revert st. induction items as [|x items IH]; intros st; simpl.
  - destruct (body st item); reflexivity.
  - destruct (body st x); simpl; [apply IH|reflexivity..].
Qed.

Lemma for_each_invariant {A S : Type} (body : S → A → outcome S)
    (I : list A → S → Prop) processed st items st' :
  (∀ processed st item st',
     I processed st → body st item = Done st' → I (processed ++ [item]) st') →
  I processed st →
  for_each body st items = Done st' →
  I (processed ++ items) st'.
Proof.
  intros Hstep. revert processed st.
  induction items as [|item items IH]; intros processed st HI; cbn [for_each].
  - intros [= <-]. by rewrite app_nil_r.
  - destruct (body st item) as [st1| |] eqn:Hbody; try done.
    cbn [mbind outcome_bind]. intros Hrun.
    replace (processed ++ item :: items) with ((processed ++ [item]) ++ items)
      by (by rewrite <- app_assoc).
    eapply IH; [|done]. by eapply Hstep.
Qed.

Lemma omap_snoc {A B : Type} (f : A → option B) l x :
  omap f (l ++ [x]) = omap f l ++ match f x with Some y => [y] | None => [] end.
Proof. by rewrite omap_app. Qed.

Lemma locate_same fs fs' p :
  cwd fs' = cwd fs → dirs fs' = dirs fs → locate fs' p = locate fs p.
Proof.
  intros Hcwd Hdirs. unfold locate. destruct p as [|s p]; [done|].
  rewrite Hcwd. generalize (cwd fs). generalize (s :: p). clear -Hdirs.
  intros q. induction q as [|s q IH]; intros l; cbn [walk]; [done|].
  unfold is_dir. rewrite Hdirs. by rewrite IH.
Qed.

Lemma is_dir_same fs fs' l : dirs fs' = dirs fs → is_dir fs' l = is_dir fs l.
Proof. intros Hdirs. unfold is_dir. by rewrite Hdirs. Qed.

(** Making directories adds the places of the path and of its ancestors to
    those that have been asked for. *)
Lemma dirs_step world fs fs' p (A A' : list string → Prop) :
  cwd fs = cwd world →
  (∀ d, d ∈ dirs fs ↔
        d ∈ dirs world ∨ d ≠ [] ∧ ∃ q, A q ∧ d = place (cwd world) q) →
  (∀ q, A q → locate fs q = Some (place (cwd world) q) ∧
              is_dir fs (place (cwd world) q) = true) →
  makedirs p fs = Done fs' →
  (∀ q, A' q ↔ A q ∨ q ∈ prefixes p) →
  (∀ d, d ∈ dirs fs' ↔
        d ∈ dirs world ∨ d ≠ [] ∧ ∃ q, A' q ∧ d = place (cwd world) q) ∧
  (∀ q, A' q → locate fs' q = Some (place (cwd world) q) ∧
               is_dir fs' (place (cwd world) q) = true).
Proof.
  intros Hcwd Hdirs Hasked Hmk HA'.
  apply makedirs_Done in Hmk as (_ & Hcwd' & _ & Hsub & Hnew & Hall).
  rewrite Hcwd in *.
  assert (∀ q, A' q → locate fs' q = Some (place (cwd world) q) ∧
                       is_dir fs' (place (cwd world) q) = true) as Hasked'.
  { intros q Hq. apply HA' in Hq as [Hq|Hq]; [|by apply Hall].
    destruct (Hasked q Hq) as [Hloc Hdir]. split.
    - apply (locate_mono fs fs'); [congruence|done|done].
    - by eapply is_dir_mono. }
  split; [|done]. intros d. split.
  - intros Hd. destruct (Hnew d Hd) as [Hold|(Hne & q & Hq & ->)].
    + apply Hdirs in Hold as [?|(Hne & q & Hq & ->)]; [by left|right].
      split; [done|]. exists q. split; [|done]. apply HA'. by left.
    + right. split; [done|]. exists q. split; [|done]. apply HA'. by right.
  - intros [Hd|(Hne & q & Hq & ->)].
    + apply Hsub, Hdirs. by left.
    + destruct (Hasked' q Hq) as [_ Hdir]. by apply is_dir_elem.
Qed.

Lemma asked_nil root q : asked root [] q ↔ q ∈ base_directories.
Proof.
  unfold asked. split; [|by left].
  intros [?|(item & ? & ? & Hin & _)]; [done|]. by apply elem_of_nil in Hin.
Qed.

Lemma asked_snoc root processed item q :
  asked root (processed ++ [item]) q ↔
  asked root processed q ∨
  ∃ service_name dir,
    demand root item = Some (service_name, dir) ∧ q ∈ prefixes dir.
Proof.
  unfold asked. split.
  - intros [?|(item' & svc & dir & Hin & Hd & Hq)]; [by left; left|].
    apply elem_of_app in Hin as [Hin|Hin].
    + left. right. by exists item', svc, dir.
    + apply list_elem_of_singleton in Hin as ->. right. by exists svc, dir.
  - intros [[?|(item' & svc & dir & Hin & Hd & Hq)]|(svc & dir & Hd & Hq)].
    + by left.
    + right. exists item', svc, dir. rewrite elem_of_app. by eauto.
    + right. exists item, svc, dir. rewrite elem_of_app, list_elem_of_singleton.
      by eauto.
Qed.

Lemma asked_snoc_none root processed item q :
  demand root item = None →
  asked root (processed ++ [item]) q ↔ asked root processed q.
Proof.
  intros Hnone. rewrite asked_snoc, Hnone. split; [|by left].
  by intros [?|(? & ? & ? & _)].
Qed.

Lemma invariant_initial world root st :
  well_formed world → initial_state_in world = Done st →
  invariant world root [] st.
Proof.
  intros Hwf. unfold initial_state_in.
  destruct (makedirs ["src"; "server"] world) as [fs1| |] eqn:H1; try done.
  cbn [mbind outcome_bind].
  destruct (makedirs ["src"; "client"] fs1) as [fs2| |] eqn:H2; try done.
  cbn [mbind outcome_bind].
  destruct (makedirs ["src"; "shared"] fs2) as [fs3| |] eqn:H3; try done.
  cbn [mbind outcome_bind]. intros [= <-].
  pose proof (well_formed_makedirs _ _ _ Hwf H1) as Hwf1.
  pose proof (well_formed_makedirs _ _ _ Hwf1 H2) as Hwf2.
  pose proof (well_formed_makedirs _ _ _ Hwf2 H3) as Hwf3.
  pose proof (makedirs_Done _ _ _ H1) as (_ & Hc1 & Hf1 & _).
  pose proof (makedirs_Done _ _ _ H2) as (_ & Hc2 & Hf2 & _).
  pose proof (makedirs_Done _ _ _ H3) as (_ & Hc3 & Hf3 & _).
  destruct (dirs_step world world fs1 ["src"; "server"] (λ _, False)
              (λ q, q ∈ prefixes ["src"; "server"]))
    as [Hd1 Ha1]; [done|naive_solver|done|done|naive_solver|].
  destruct (dirs_step world fs1 fs2 ["src"; "client"] _
              (λ q, q ∈ prefixes ["src"; "server"] ∨ q ∈ prefixes ["src"; "client"])
              Hc1 Hd1 Ha1 H2)
    as [Hd2 Ha2]; [done|].
  destruct (dirs_step world fs2 fs3 ["src"; "shared"] _ (asked root [])
              ltac:(congruence) Hd2 Ha2 H3)
    as [Hd3 Ha3].
  { intros q. rewrite asked_nil. unfold base_directories, prefixes. cbn.
    set_solver. }
  split; cbn [fs scripts_found folder_structure parent_map_builds]; try done.
  - congruence.
  - constructor.
  - intros l. unfold places_found. cbn. rewrite elem_of_nil.
    rewrite Hf3, Hf2, Hf1. naive_solver.
  - intros l Hl. by apply elem_of_nil in Hl.
  - intros l content. by rewrite Hf3, Hf2, Hf1.
  - rewrite Hf3, Hf2, Hf1. cbn. lia.
Qed.

Lemma demand_script root item j :
  script_job root item = Some j →
  demand root item = Some (job_service j, dirname (job_target j)).
Proof. unfold demand. by intros ->. Qed.

Lemma demand_folder root item :
  script_job root item = None → demand root item = folder_job root item.
Proof. unfold demand. by intros ->. Qed.

Lemma invariant_step world root processed st item st' :
  invariant world root processed st →
  process_item root st item = Done st' →
  invariant world root (processed ++ [item]) st'.
Proof.
  intros [Hcwd Hwf Hdirs Hasked Hrec Hnd Hfiles Hnew Hold Hfst Hcount Hbuilds] Hstep.
  apply process_item_Done in Hstep as [Hb Hstep]; [|done].
  assert (parent_map_builds st' =
          1 + length (filter (λ item : node, is_Some (item_name_of item.2))
                             (processed ++ [item]))) as Hbuilds'.
  { rewrite filter_app, length_app, Hb, Hbuilds.
    rewrite filter_cons, filter_nil.
    destruct (item_name_of item.2) as [name|].
    - rewrite decide_True by (by eexists). simpl. lia.
    - rewrite decide_False by (by intros []). simpl. lia. }
  assert (∀ d, (∃ item' svc, item' ∈ processed ∧ demand root item' = Some (svc, d)) →
               ∃ item' svc, item' ∈ processed ++ [item] ∧
                            demand root item' = Some (svc, d)) as Hfst_mono.
  { intros d (item' & svc & Hin & Hd). exists item', svc.
    rewrite elem_of_app. by eauto. }
  destruct (script_job root item) as [j|] eqn:Hjob.
  - cbn zeta in Hstep. rewrite Hcwd in Hstep.
    destruct Hstep as (ready & file_path & Hmk & Halloc & Hloc & Hnot & Hnone &
                       Hfs & Hfound & Hfst').
    set (l := place (cwd world) file_path) in *.
    pose proof (demand_script _ _ _ Hjob) as Hdemand.
    pose proof (well_formed_makedirs _ _ _ Hwf Hmk) as Hwfr.
    pose proof (makedirs_Done _ _ _ Hmk) as (Hne & Hcr & Hfr & Hsub & _ & Hall).
    destruct (dirs_step world (fs st) ready _ _ (asked root (processed ++ [item]))
                Hcwd Hdirs Hasked Hmk) as [Hdirs' Hasked'].
    { intros q. rewrite asked_snoc, Hdemand. naive_solver. }
    assert (places_found world st' = places_found world st ++ [l]) as Hplaces.
    { unfold places_found. by rewrite Hfound, fmap_app. }
    assert (l ∉ places_found world st) as Hfresh.
    { intros Hin. assert (is_Some (files (fs st) !! l)) as [x Hx]
        by (apply Hfiles; by right). congruence. }
    assert (files world !! l = None) as Hworld.
    { destruct (files world !! l) as [x|] eqn:Hx; [|done].
      apply Hold in Hx. congruence. }
    split; rewrite ?Hfs, ?Hfound, ?Hplaces; cbn [cwd dirs files]; try done.
    + replace (mkFS (cwd world) (dirs ready) (<[l:=job_source j]> (files (fs st))))
        with (mkFS (cwd ready) (dirs ready) (<[l:=job_source j]> (files ready)))
        by (by rewrite Hcr, Hfr, Hcwd).
      by apply (well_formed_write ready file_path).
    + intros q Hq. destruct (Hasked' q Hq) as [Hq1 Hq2]. split.
      * rewrite <- Hq1. apply locate_same; cbn; [congruence|done].
      * rewrite <- Hq2. by apply is_dir_same.
    + rewrite omap_snoc, Hjob. apply Forall2_app.
      * eapply Forall2_impl; [exact Hrec|]. cbn.
        intros j' r (p & -> & Hp1 & Hp2 & Hp3). exists p. split; [done|].
        split; [|split; [|done]].
        -- apply (locate_mono (fs st)); [done|done|done].
        -- rewrite lookup_insert_ne; [done|]. intros Heq. congruence.
      * constructor; [|constructor]. exists file_path. split; [done|].
        split; [|split].
        -- etrans; [|exact Hloc]. apply locate_same; cbn; [congruence|done].
        -- by rewrite lookup_insert_eq.
        -- destruct Halloc as [_ [[_ ->]|(_ & c & _ & -> & _)]]; [by left|].
           right. by exists c.
    + apply NoDup_app. split; [done|]. split; [|apply NoDup_singleton].
      intros p Hp Hp'. apply list_elem_of_singleton in Hp' as ->. done.
    + intros p. rewrite elem_of_app, list_elem_of_singleton, lookup_insert.
      case_decide as Heq; [subst p|].
      * split; [by right; right|by eexists].
      * rewrite Hfiles. naive_solver.
    + intros p. rewrite elem_of_app, list_elem_of_singleton.
      intros [?| ->]; [by apply Hnew|done].
    + intros p content Hp. rewrite lookup_insert_ne; [by apply Hold|].
      intros <-. congruence.
    + intros d Hd. destruct Hfst' as [Heq|Heq]; rewrite Heq in Hd.
      * by apply Hfst_mono, Hfst.
      * apply elem_of_union in Hd as [Hd|Hd]; [|by apply Hfst_mono, Hfst].
        apply elem_of_singleton in Hd as ->. exists item, (job_service j).
        rewrite elem_of_app, list_elem_of_singleton. by eauto.
    + rewrite map_size_insert_None by done. rewrite length_app. simpl. lia.
  - destruct Hstep as [Hfound Hstep].
    pose proof (demand_folder _ _ Hjob) as Hdemand.
    assert (places_found world st' = places_found world st) as Hplaces
      by (unfold places_found; by rewrite Hfound).
    destruct (folder_job root item) as [[svc dir]|] eqn:Hfolder.
    + destruct Hstep as [Hmk Hfst'].
      pose proof (well_formed_makedirs _ _ _ Hwf Hmk) as Hwf'.
      pose proof (makedirs_Done _ _ _ Hmk) as (Hne & Hc' & Hf' & Hsub & _).
      destruct (dirs_step world (fs st) (fs st') _ _ (asked root (processed ++ [item]))
                  Hcwd Hdirs Hasked Hmk) as [Hdirs' Hasked'].
      { intros q. rewrite asked_snoc, Hdemand. naive_solver. }
      split; rewrite ?Hfound, ?Hplaces, ?Hf'; try done.
      * congruence.
      * rewrite omap_snoc, Hjob, app_nil_r.
        eapply Forall2_impl; [exact Hrec|]. cbn.
        intros j' r (p & -> & Hp1 & Hp2). exists p. split; [done|]. split; [|done].
        by apply (locate_mono (fs st)).
      * intros d Hd. rewrite Hfst' in Hd.
        apply elem_of_union in Hd as [Hd|Hd]; [|by apply Hfst_mono, Hfst].
        apply elem_of_singleton in Hd as ->. exists item, svc.
        rewrite elem_of_app, list_elem_of_singleton. by eauto.
    + destruct Hstep as [Hfs Hfst'].
      split; rewrite ?Hfound, ?Hplaces, ?Hfs; try done.
      * intros d. rewrite Hdirs. by setoid_rewrite (asked_snoc_none _ _ _ _ Hdemand).
      * intros q Hq. apply Hasked. by apply (asked_snoc_none _ _ _ _ Hdemand).
      * by rewrite omap_snoc, Hjob, app_nil_r.
      * intros d Hd. rewrite Hfst' in Hd. by apply Hfst_mono, Hfst.
Qed.

Lemma extract_invariant world root st :
  well_formed world →
  extract_scripts_with_structure_in world root = Done st →
  invariant world root (iter_tag "Item" root) st.
Proof.
  intros Hwf. unfold extract_scripts_with_structure_in.
  destruct (initial_state_in world) as [st0| |] eqn:Hinit; try done.
  cbn [mbind outcome_bind]. intros Hrun.
  change (iter_tag "Item" root) with ([] ++ iter_tag "Item" root).
  eapply (for_each_invariant _ (invariant world root));
    [|by apply invariant_initial|done].
  intros. by eapply invariant_step.
Qed.

Lemma run_upto_invariant world root k st :
  well_formed world →
  run_upto_in world root k = Done st →
  invariant world root (take k (iter_tag "Item" root)) st.
Proof.
  intros Hwf. unfold run_upto_in.
  destruct (initial_state_in world) as [st0| |] eqn:Hinit; try done.
  cbn [mbind outcome_bind]. intros Hrun.
  change (take k (iter_tag "Item" root))
    with ([] ++ take k (iter_tag "Item" root)).
  eapply (for_each_invariant _ (invariant world root));
    [|by apply invariant_initial|done].
  intros. by eapply invariant_step.
Qed.

Lemma initial_state_within_fuel world : initial_state_in world ≠ OutOfFuel.
Proof.
  unfold initial_state_in.
  pose proof (makedirs_within_fuel ["src"; "server"] world).
  destruct (makedirs ["src"; "server"] world) as [fs1| |]; try done.
  cbn [mbind outcome_bind].
  pose proof (makedirs_within_fuel ["src"; "client"] fs1).
  destruct (makedirs ["src"; "client"] fs1) as [fs2| |]; try done.
  cbn [mbind outcome_bind].
  pose proof (makedirs_within_fuel ["src"; "shared"] fs2).
  by destruct (makedirs ["src"; "shared"] fs2) as [fs3| |].
Qed.

Lemma extract_within_fuel world root :
  extract_scripts_with_structure_in world root ≠ OutOfFuel.
Proof.
  unfold extract_scripts_with_structure_in.
  pose proof (initial_state_within_fuel world).
  destruct (initial_state_in world) as [st0| |]; try done.
  apply for_each_within_fuel.
Qed.

Lemma well_formed_empty : well_formed empty_fs.
Proof.
  split; [done| |].
  - intros l Hl. by apply elem_of_empty in Hl.
  - intros l. cbn. rewrite lookup_empty. by intros [].
Qed.

(** * Documents without the names [.] and [..] *)

Lemma removelast_Forall {A : Type} (P : A → Prop) l :
  Forall P l → Forall P (removelast l).
Proof.
  induction 1 as [|x l Hx Hl IH]; [constructor|].
  destruct l; [constructor|]. cbn. constructor; [done|]. apply IH.
Qed.

Lemma last_Forall {A : Type} (P : A → Prop) l d :
  l ≠ [] → Forall P l → P (List.last l d).
Proof.
  induction l as [|x l IH]; [done|]. intros _ Hall.
  apply Forall_cons in Hall as [Hx Hl].
  destruct l as [|y l]; [done|]. by apply IH.
Qed.

Lemma starter_player_rule_Forall (P : string → Prop) s path :
  Forall P path → Forall P (starter_player_rule s path).
Proof.
  intros Hall. unfold starter_player_rule. case_decide; [|done].
  destruct path as [|seg path]; [done|]. case_decide; [|done].
  by apply Forall_cons in Hall as [_ ?].
Qed.

Lemma service_base_dir_tag s :
  s ∈ service_names →
  ∃ tagname, base_dir_of s = ["src"; tagname] ∧
    (s = "Workspace" ∧ tagname = "workspace" ∨
     s ≠ "Workspace" ∧ tagname ∈ ["server"; "client"; "shared"]).
Proof.
  unfold service_names. rewrite !elem_of_cons, elem_of_nil.
  intros [->|[->|[->|[->|[->|[->|[]]]]]]]; eexists; (split; [reflexivity|]);
    first [by left | right; split; [done|set_solver]].
Qed.

(** The directory an item asks for lies in the base directory of its
    service. *)
Lemma demand_shape root item svc dir :
  demand root item = Some (svc, dir) →
  svc ∈ service_names ∧ ∃ rest, dir = base_dir_of svc ++ rest.
Proof.
  unfold demand. destruct (script_job root item) as [j|] eqn:Hjob.
  - intros [= <- <-]. apply script_job_Some in Hjob as (_ & _ & _ & Hfind & _).
    split; [by eapply find_parent_service_in_names|].
    unfold job_target.
    destruct (script_target_shape (base_dir_of (job_service j)) (job_name j)
                (starter_player_rule (job_service j) (job_path j)))
      as (rest & stem & ->).
    exists rest. cbn [snd]. by rewrite dirname_snoc.
  - unfold folder_job.
    destruct (get "class" item.2) as [cls|]; cbn [mbind option_bind]; [|done].
    destruct (decide (cls = "Folder")); [|done].
    destruct (item_name_of item.2) as [nm|]; cbn [mbind option_bind]; [|done].
    destruct (resolved (find_parent_service item root)) as [[sv pth]|] eqn:Hres;
      cbn [mbind option_bind fst snd]; [|done].
    apply resolved_Some in Hres. destruct pth as [|seg pth]; [done|].
    intros [= <- <-]. split; [by eapply find_parent_service_in_names|].
    by eexists.
Qed.

Lemma elem_of_iter_tag root tg p e :
  (p, e) ∈ iter_tag tg root ↔ tag e = tg ∧ element_at root p = Some e.
Proof. unfold iter_tag. by rewrite list_elem_of_filter, elem_of_iter. Qed.

Lemma clean_name_plain name : ¬ dot_segment name → ¬ dot_segment (clean_name name).
Proof.
  assert (∀ c, clean_char c = "."%char → c = "."%char) as Hc.
  { intros c. unfold clean_char. by destruct (invalid_char c). }
  intros Hname [H|H]; apply Hname.
  - destruct name as [|c [|c' name]]; try done.
    injection H as H. apply Hc in H as ->. by left.
  - destruct name as [|c [|c' [|c'' name]]]; try done.
    injection H as H H'. apply Hc in H as ->. apply Hc in H' as ->. by right.
Qed.

Lemma scan_Forall (P : string → Prop) chain path :
  Forall (λ e, ∀ n, named e = Some n → P n) chain →
  Forall P path → Forall P (scan chain path).2.
Proof.
  intros Hchain. revert path. induction Hchain as [|e chain He _ IH]; intros path Hpath.
  - constructor.
  - cbn [scan]. destruct (named e) as [n|]; [|by apply IH].
    destruct (decide (n ∈ service_names)); [by apply Forall_reverse|].
    apply IH. apply Forall_app. split; [done|]. constructor; [by apply He|done].
Qed.

Lemma plain_names_named root p e n :
  plain_names root → element_at root p = Some e → named e = Some n →
  ¬ dot_segment n.
Proof.
  unfold plain_names. rewrite Forall_forall. intros Hall He Hn. apply Hall.
  apply list_elem_of_omap. exists (p, e). split; [by apply elem_of_iter|done].
Qed.

Lemma find_parent_service_plain root p e s path :
  plain_names root → element_at root p = Some e →
  find_parent_service (p, e) root = Some (s, path) →
  Forall (λ n, ¬ dot_segment n) path.
Proof.
  intros Hplain He. rewrite (find_parent_service_scan _ _ _ He).
  intros [= Hscan]. replace path with (scan (reverse (way_down root p)) []).2
    by (by rewrite Hscan).
  apply scan_Forall; [|constructor]. apply Forall_reverse, Forall_forall.
  intros e' He' n Hn. unfold way_down in He'.
  apply list_elem_of_omap in He' as (q & _ & Hq).
  by eapply plain_names_named.
Qed.

Lemma base_dir_of_plain s :
  s ∈ service_names → Forall (λ n, ¬ dot_segment n) (base_dir_of s).
Proof.
  intros Hs. destruct (service_base_dir s Hs) as (tagname & Hbase & Htag).
  unfold base_dir_of. rewrite Hbase. by apply base_dir_plain.
Qed.

Lemma clean_names_plain path :
  Forall (λ n, ¬ dot_segment n) path →
  Forall (λ n, ¬ dot_segment n) (clean_name <$> path).
Proof.
  intros Hpath. apply Forall_fmap. eapply Forall_impl; [exact Hpath|].
  intros n. apply clean_name_plain.
Qed.

(** In such a document the directory of a script is spelled without [.]
    and [..], and the file has a name of its own. *)
Lemma job_target_plain root item j :
  plain_names root → item ∈ iter_tag "Item" root →
  script_job root item = Some j →
  ∃ stem, job_target j = dirname (job_target j) ++ [stem +:+ ".lua"] ∧
          Forall (λ n, ¬ dot_segment n) (dirname (job_target j)).
Proof.
  intros Hplain Hitem Hjob. destruct item as [p e].
  apply elem_of_iter_tag in Hitem as [_ He].
  apply script_job_Some in Hjob as (_ & _ & _ & Hfind & _).
  pose proof (find_parent_service_in_names _ _ _ _ Hfind) as Hs.
  pose proof (find_parent_service_plain _ _ _ _ _ Hplain He Hfind) as Hpath.
  unfold job_target.
  destruct (script_target_shape (base_dir_of (job_service j)) (job_name j)
              (starter_player_rule (job_service j) (job_path j)))
    as (rest & stem & Hshape).
  exists stem. rewrite script_target_dirname. rewrite Hshape. cbn [snd].
  pose proof (script_target_dirname (base_dir_of (job_service j)) (job_name j)
                (starter_player_rule (job_service j) (job_path j))) as Hdir.
  rewrite Hshape in Hdir. cbn [snd] in Hdir. rewrite dirname_snoc in Hdir.
  split; [by rewrite Hdir|].
  apply Forall_app. split; [by apply base_dir_of_plain|].
  by apply clean_names_plain, removelast_Forall, starter_player_rule_Forall.
Qed.

Lemma demand_plain root item service_name dir :
  plain_names root → item ∈ iter_tag "Item" root →
  demand root item = Some (service_name, dir) →
  Forall (λ n, ¬ dot_segment n) dir.
Proof.
  intros Hplain Hitem. unfold demand.
  destruct (script_job root item) as [j|] eqn:Hjob.
  - intros [= _ <-].
    by destruct (job_target_plain _ _ _ Hplain Hitem Hjob) as (_ & _ & ?).
  - destruct item as [p e]. apply elem_of_iter_tag in Hitem as [_ He].
    unfold folder_job.
    destruct (get "class" (p, e).2) as [cls|]; cbn [mbind option_bind]; [|done].
    destruct (decide (cls = "Folder")); [|done].
    destruct (item_name_of (p, e).2) as [nm|]; cbn [mbind option_bind]; [|done].
    destruct (resolved (find_parent_service (p, e) root)) as [[sv pth]|] eqn:Hres;
      cbn [mbind option_bind fst snd]; [|done].
    apply resolved_Some in Hres. destruct pth as [|seg pth]; [done|].
    intros [= <- <-]. apply Forall_app. split.
    + apply base_dir_of_plain. by eapply find_parent_service_in_names.
    + apply (clean_names_plain (seg :: pth)).
      by eapply find_parent_service_plain.
Qed.

Lemma asked_plain root q :
  plain_names root → asked root (iter_tag "Item" root) q →
  Forall (λ n, ¬ dot_segment n) q.
Proof.
  intros Hplain [Hbase|(item & svc & dir & Hitem & Hdemand & Hq)].
  - unfold base_directories in Hbase.
    repeat (apply elem_of_cons in Hbase as [->|Hbase];
            [repeat constructor; by intros [?|?]|]).
    by apply elem_of_nil in Hbase.
  - eapply prefixes_Forall; [|done]. by eapply demand_plain.
Qed.

(** Where nothing is at [src], nothing is below it. *)
Lemma below_src_absent world rest :
  well_formed world → path_exists world ["src"] = false →
  cwd world ++ "src" :: rest ∉ dirs world.
Proof.
  intros Hwf Habsent Hin.
  rewrite path_exists_plain in Habsent;
    [|done|repeat constructor; by intros [?|?]|done].
  apply orb_false_iff in Habsent as [Habsent _].
  assert (is_dir world (cwd world ++ ["src"]) = true); [|congruence].
  destruct rest as [|s rest].
  - apply is_dir_true. by right.
  - apply (entry_ancestor world _ (s :: rest)); [done| |done].
    left. apply is_dir_true. right. by rewrite <- app_assoc.
Qed.

Lemma records_located world root processed st r :
  invariant world root processed st → r ∈ scripts_found st →
  locate (fs st) (script_path r) = Some (place (cwd world) (script_path r)) ∧
  is_Some (files (fs st) !! place (cwd world) (script_path r)).
Proof.
  intros Hinv Hr. destruct Hinv as [_ _ _ _ Hrec _ _ _ _ _ _ _].
  apply list_elem_of_lookup in Hr as [i Hi].
  destruct (Forall2_lookup_r _ _ _ _ _ Hrec Hi)
    as (j & _ & file_path & -> & Hloc & Hfile & _).
  cbn [job_record script_path]. split; [done|by eexists].
Qed.

Lemma well_formed_world_game : well_formed world_game.
Proof.
  split.
  - reflexivity.
  - intros l. cbn [world_game dirs]. rewrite elem_of_union, !elem_of_singleton.
    intros [-> | ->]; reflexivity.
  - intros l. cbn [world_game files]. intros [x Hx].
    apply lookup_singleton_Some in Hx as [<- _]. split; reflexivity.
Qed.

(** * The properties of the specification *)

Lemma invalid_char_ascii c : invalid_char c = true → nat_of_ascii c < 128.
Proof.
  unfold invalid_char. rewrite bool_decide_eq_true, !elem_of_cons, elem_of_nil.
  intros [->|[->|[->|[->|[->|[->|[->|[->|[->|[]]]]]]]]]]; vm_compute; lia.
Qed.

Lemma clean_char_idempotent c : clean_char (clean_char c) = clean_char c.
Proof.
  unfold clean_char. destruct (invalid_char c) eqn:Hc; [done|]. by rewrite Hc.
Qed.

(** C5. [clean_name] is defined on every string; it keeps the length,
    replaces exactly the nine characters of the class by an underscore, leaves
    every other character as it is (every byte of a non-ASCII character among
    them), and applying it twice is the same as applying it once. *)
Theorem clean_name_total_idempotent (name : string) :
  String.length (clean_name name) = String.length name ∧
  (∀ i, String.get i (clean_name name) =
        (λ c, if invalid_char c then "_"%char else c) <$> String.get i name) ∧
  (∀ c, invalid_char c = true ↔
        c ∈ ["<"; ">"; ":"; Str.dquote; "/"; "\"; "|"; "?"; "*"]%char) ∧
  (∀ c, 128 ≤ nat_of_ascii c → clean_char c = c) ∧
  clean_name (clean_name name) = clean_name name.
Proof.
  unfold clean_name. split; [apply map_length|]. split; [apply map_get|].
  split; [intros c; unfold invalid_char; apply bool_decide_eq_true|].
  split.
  - intros c Hc. unfold clean_char. destruct (invalid_char c) eqn:Hinv; [|done].
    apply invalid_char_ascii in Hinv. lia.
  - induction name as [|c name IH]; simpl; [done|].
    by rewrite clean_char_idempotent, IH.
Qed.

(** C1, as worded, fails: for the script [Foo] directly below [Workspace]
    the function returns the path [Foo], the name of the node itself, where
    the claim has the empty path. *)
Lemma find_parent_service_excludes_node_counterexample :
  element_at doc_foo [0; 1] = Some foo_script ∧
  way_down doc_foo [0; 1] = [] ++ workspace_item :: [foo_script] ∧
  service_named workspace_item = Some "Workspace" ∧
  service_named foo_script = None ∧
  find_parent_service ([0; 1], foo_script) doc_foo =
    Some (Some "Workspace", ["Foo"]) ∧
  find_parent_service ([0; 1], foo_script) doc_foo ≠
    Some (Some "Workspace", names_above_node [foo_script]).
Proof. repeat split; try reflexivity. vm_compute. discriminate. Qed.

(** C1, amended.  Let the way from the root (excluded) down to a node
    (included) pass an element named after a service, with no such element
    further down.  Then [find_parent_service] returns that service and the
    names of the named items below it in top-down order, down to and
    including the node itself: the elements whose names are returned end
    with the node. *)
Theorem find_parent_service_path root p e above svc below s :
  element_at root p = Some e →
  way_down root p = above ++ svc :: below →
  service_named svc = Some s →
  Forall (λ x, service_named x = None) below →
  find_parent_service (p, e) root = Some (Some s, omap named below) ∧
  (below = [] ∨ ∃ front, below = front ++ [e]).
Proof.
  intros He Hway Hs Hbelow. split; [by eapply find_parent_service_split|].
  destruct below as [|b below _] using rev_ind; [by left|right].
  exists below. f_equal.
  destruct p as [|i p]; [by destruct above|].
  destruct (way_down_last root (i :: p) e He) as (front & Hfront); [done|].
  rewrite Hfront in Hway.
  change (above ++ svc :: below ++ [b]) with (above ++ (svc :: below) ++ [b]) in Hway.
  rewrite app_assoc in Hway. apply app_inj_tail in Hway as [_ ->]. done.
Qed.

Lemma find_parent_service_path_witness :
  find_parent_service ([0; 1], foo_script) doc_foo =
    Some (Some "Workspace", omap named [foo_script]) ∧
  ([foo_script] = [] ∨ ∃ front, [foo_script] = front ++ [foo_script]).
Proof.
  apply (find_parent_service_path doc_foo [0; 1] foo_script [] workspace_item
           [foo_script] "Workspace").
  - reflexivity.
  - reflexivity.
  - reflexivity.
  - repeat constructor.
Defined.

Lemma scan_service_is_head chain path :
  (scan chain path).1 = head (omap service_named chain).
Proof.
  revert path. induction chain as [|e chain IH]; intros path; [done|].
  cbn [scan omap list_omap]. unfold service_named at 1.
  destruct (named e) as [n|]; cbn [mbind option_bind]; [|apply IH].
  destruct (decide (n ∈ service_names)); [done|apply IH].
Qed.

Lemma nearest_service_scan root p path :
  (scan (reverse (way_down root p)) path).1 = nearest_service (way_down root p).
Proof.
  unfold nearest_service. by rewrite scan_service_is_head, omap_reverse, head_reverse.
Qed.

(** C10, as worded, fails at the root of the document: when the root element
    is an item named [Workspace], neither the root nor the script below it is
    given that service, although on the way from the root down to either of
    them an element is named after it. *)
Lemma nearest_service_root_counterexample :
  element_at doc_root_service [] = Some workspace_item ∧
  element_at doc_root_service [1] = Some foo_script ∧
  nearest_service (way_down_with_root doc_root_service []) = Some "Workspace" ∧
  find_parent_service ([], workspace_item) doc_root_service = Some (None, []) ∧
  nearest_service (way_down_with_root doc_root_service [1]) = Some "Workspace" ∧
  find_parent_service ([1], foo_script) doc_root_service = Some (None, []).
Proof. repeat split; reflexivity. Qed.

(** C10, amended.  [find_parent_service] gives a node the service of the
    innermost element, on the way from the root (excluded) down to the node
    (included), that is an item named after a service, at whatever depth
    that element lies, and no service if there is none.  A node other than
    the root that is itself named after a service gets that service and the
    empty path; an element named after a service, with none further down,
    gives its name to the node whatever lies above it. *)
Theorem find_parent_service_nearest root p e :
  element_at root p = Some e →
  (∃ path, find_parent_service (p, e) root =
           Some (nearest_service (way_down root p), path)) ∧
  (∀ s, p ≠ [] → service_named e = Some s →
        find_parent_service (p, e) root = Some (Some s, [])) ∧
  (∀ above svc below s,
     way_down root p = above ++ svc :: below →
     service_named svc = Some s →
     Forall (λ x, service_named x = None) below →
     nearest_service (way_down root p) = Some s).
Proof.
  intros He. rewrite (find_parent_service_scan _ _ _ He). split; [|split].
  - exists (scan (reverse (way_down root p)) []).2.
    rewrite <- (nearest_service_scan root p []). by destruct (scan _ _).
  - intros s Hp Hs. destruct (way_down_last root p e He Hp) as (front & ->).
    rewrite reverse_snoc. cbn [scan].
    apply service_named_Some in Hs as [-> Hs]. by rewrite decide_True.
  - intros above svc below s Hway Hs Hbelow.
    rewrite <- (nearest_service_scan root p []), Hway.
    rewrite reverse_app, reverse_cons, <- app_assoc. cbn [app].
    by rewrite (scan_service _ _ _ s) by (by rewrite ?Forall_reverse).
Qed.

Lemma find_parent_service_nearest_witness :
  (∃ path, find_parent_service ([0; 1], foo_script) doc_foo =
           Some (nearest_service (way_down doc_foo [0; 1]), path)) ∧
  (∀ s, [0; 1] ≠ [] → service_named foo_script = Some s →
        find_parent_service ([0; 1], foo_script) doc_foo = Some (Some s, [])) ∧
  (∀ above svc below s,
     way_down doc_foo [0; 1] = above ++ svc :: below →
     service_named svc = Some s →
     Forall (λ x, service_named x = None) below →
     nearest_service (way_down doc_foo [0; 1]) = Some s).
Proof. apply (find_parent_service_nearest doc_foo [0; 1] foo_script). reflexivity. Defined.

(** C7.  The round of the loop for an item without a name, for an item whose
    walk reaches the root without a service, and for an item of a script
    class without a source text ends normally and leaves the file system, the
    list of extracted scripts, the set of folders and with them the counts of
    the summary as they were. *)
Theorem skipped_item_leaves_no_trace root st item :
  item_name_of item.2 = None ∨
  find_parent_service item root = Some (None, []) ∨
  ((∃ cls, get "class" item.2 = Some cls ∧ cls ∈ script_classes) ∧
   source_of item.2 = None) →
  ∃ st', process_item root st item = Done st' ∧
         fs st' = fs st ∧
         scripts_found st' = scripts_found st ∧
         folder_structure st' = folder_structure st ∧
         total_scripts st' = total_scripts st ∧
         by_service (scripts_found st') = by_service (scripts_found st).
Proof.
  intros Hskip. unfold process_item, total_scripts.
  destruct (item_name_of item.2) as [name|]; [|by eexists].
  destruct Hskip as [?|Hskip]; [done|].
  destruct (find_parent_service_total item root) as [[service path] Hfind].
  rewrite Hfind.
  destruct (service ≫= _) as [[s base]|] eqn:Hs; [|by eexists].
  destruct Hskip as [Hnone|[(cls & Hcls & Hin) Hsource]].
  { rewrite Hnone in Hfind. by injection Hfind as <- <-. }
  rewrite Hcls, decide_True by done.
  unfold handle_script. rewrite Hsource. by eexists.
Qed.

Lemma skipped_item_leaves_no_trace_witness :
  ∃ st', process_item doc_empty_source (mkState empty_fs [] ∅ 1)
           ([0; 1], empty_script) = Done st' ∧
         fs st' = empty_fs ∧ scripts_found st' = [] ∧
         folder_structure st' = ∅ ∧ total_scripts st' = 0 ∧
         by_service (scripts_found st') = by_service [].
Proof.
  apply (skipped_item_leaves_no_trace doc_empty_source (mkState empty_fs [] ∅ 1)
           ([0; 1], empty_script)).
  right. right. split; [|reflexivity].
  exists "Script". split; [reflexivity|]. unfold script_classes. set_solver.
Defined.

(** What a run that ends normally shows of its final state. *)
Lemma run_observe {B : Type} (f : State → B) root b :
  f <$> extract_scripts_with_structure root = Done b →
  ∃ st, extract_scripts_with_structure root = Done st ∧ f st = b.
Proof.
  destruct (extract_scripts_with_structure root) as [st| |]; try done.
  intros [= <-]. by exists st.
Qed.

Lemma run_observe_in {B : Type} (f : State → B) world root b :
  f <$> extract_scripts_with_structure_in world root = Done b →
  ∃ st, extract_scripts_with_structure_in world root = Done st ∧ f st = b.
Proof.
  destruct (extract_scripts_with_structure_in world root) as [st| |]; try done.
  intros [= <-]. by exists st.
Qed.

(** C4.  Under [StarterPlayer], a first segment [StarterPlayerScripts] is
    dropped, so that the file of a script is computed from the rest of its
    path and what lies directly below the marker is placed directly in the
    client directory, while a first segment [StarterCharacterScripts] stays
    and is the first folder below the client directory.  In particular the
    local script [Move] in [StarterPlayer/StarterPlayerScripts] is written to
    [src/client/Move.lua], and the script [Init] in
    [StarterPlayer/StarterCharacterScripts] is written to
    [src/client/StarterCharacterScripts/Init.lua], a real directory. *)
Theorem starter_player_marker_folders :
  (∀ rest, starter_player_rule "StarterPlayer" ("StarterPlayerScripts" :: rest)
           = rest) ∧
  (∀ name leaf,
     script_target ["src"; "client"] name
       (starter_player_rule "StarterPlayer" ["StarterPlayerScripts"; leaf]) =
     (None, ["src"; "client"; clean_name leaf +:+ ".lua"])) ∧
  (∀ cls name rest source,
     job_target (mkJob cls name "StarterPlayer"
                   ("StarterPlayerScripts" :: rest) source) =
     (script_target ["src"; "client"] name rest).2) ∧
  (∀ rest, starter_player_rule "StarterPlayer" ("StarterCharacterScripts" :: rest)
           = "StarterCharacterScripts" :: rest) ∧
  (∀ name seg more,
     let folders := clean_name <$> all_but_last (seg :: more) in
     let leaf := clean_name (List.last (seg :: more) "") in
     script_target ["src"; "client"] name
       (starter_player_rule "StarterPlayer"
          ("StarterCharacterScripts" :: seg :: more)) =
     (Some (["src"; "client"; "StarterCharacterScripts"] ++ folders),
      ["src"; "client"; "StarterCharacterScripts"] ++ folders ++ [leaf +:+ ".lua"])) ∧
  (∃ st, extract_scripts_with_structure doc_starter = Done st ∧
         (script_path <$> scripts_found st,
          files (fs st) !! ["src"; "client"; "Move.lua"],
          files (fs st) !! ["src"; "client"; "StarterCharacterScripts"; "Init.lua"],
          bool_decide (["src"; "client"; "StarterCharacterScripts"] ∈ dirs (fs st)),
          bool_decide (["src"; "client"; "StarterPlayerScripts"] ∈ dirs (fs st))) =
         ([["src"; "client"; "Move.lua"];
           ["src"; "client"; "StarterCharacterScripts"; "Init.lua"]],
          Some "print(1)", Some "print(2)", true, false)).
Proof.
  split; [done|]. split; [done|]. split; [done|]. split; [done|]. split.
  - intros name seg more. reflexivity.
  - apply run_observe. vm_compute. reflexivity.
Qed.

Lemma run_upto_succ world root k item :
  iter_tag "Item" root !! k = Some item →
  run_upto_in world root (S k) =
  run_upto_in world root k ≫= λ st, process_item root st item.
Proof.
  intros Hk. unfold run_upto_in. rewrite (take_S_r _ _ _ Hk).
  destruct (initial_state_in world) as [st0| |]; cbn [mbind outcome_bind]; try done.
  apply for_each_snoc.
Qed.

Lemma run_upto_all world root :
  run_upto_in world root (length (iter_tag "Item" root)) =
  extract_scripts_with_structure_in world root.
Proof. unfold run_upto_in. by rewrite firstn_all. Qed.




(** C3, as worded, fails: of two scripts named [Utils] that follow a script
    named [Utils_1], the first keeps [Utils.lua], but the second is written
    to [Utils_2.lua], not to [Utils_1.lua]. *)
Lemma second_gets_suffix_1_counterexample :
  ∃ st, extract_scripts_with_structure doc_utils = Done st ∧
    let targets :=
      job_target <$> omap (script_job doc_utils) (iter_tag "Item" doc_utils) in
    targets = [["src"; "shared"; "Utils_1.lua"]; ["src"; "shared"; "Utils.lua"];
               ["src"; "shared"; "Utils.lua"]] ∧
    paths_by_rank targets =
      [["src"; "shared"; "Utils_1.lua"]; ["src"; "shared"; "Utils.lua"];
       ["src"; "shared"; "Utils_1.lua"]] ∧
    script_path <$> scripts_found st =
      [["src"; "shared"; "Utils_1.lua"]; ["src"; "shared"; "Utils.lua"];
       ["src"; "shared"; "Utils_2.lua"]] ∧
    script_path <$> scripts_found st ≠ paths_by_rank targets.
Proof.
  destruct (run_observe (λ st, script_path <$> scripts_found st) doc_utils
              [["src"; "shared"; "Utils_1.lua"]; ["src"; "shared"; "Utils.lua"];
               ["src"; "shared"; "Utils_2.lua"]])
    as (st & Hrun & Hpaths); [vm_compute; reflexivity|].
  exists st. split; [done|]. cbn zeta. rewrite Hpaths.
  split; [vm_compute; reflexivity|]. split; [vm_compute; reflexivity|].
  split; [done|]. vm_compute. discriminate.
Qed.

(** C3, amended.  A run never reaches the bounds on the loops of the model,
    and the files of a run that ends normally have pairwise different paths.
    In every round of the loop (the run being the rounds for all the items),
    in whatever file system the run started and whatever the names of the
    document, the files already there keep their text, and a script that is
    written gets the path computed for it when nothing exists there, else
    that path with the first counter, counting from 1, for which nothing
    exists, be it a file or a directory; its text is then in the file that
    this path leads to.  What exists is looked up when the directory of the
    file has been made, which is the same as before the round when no item is
    named [.] or [..].  Two module scripts [Utils] in [ReplicatedStorage] are
    written to [src/shared/Utils.lua] and [src/shared/Utils_1.lua] in this
    order. *)
Theorem collision_suffixing world root :
  well_formed world →
  extract_scripts_with_structure_in world root ≠ OutOfFuel ∧
  (∀ st, extract_scripts_with_structure_in world root = Done st →
         NoDup (script_path <$> scripts_found st)) ∧
  run_upto_in world root (length (iter_tag "Item" root)) =
    extract_scripts_with_structure_in world root ∧
  (∀ k item st st',
     iter_tag "Item" root !! k = Some item →
     run_upto_in world root k = Done st →
     run_upto_in world root (S k) = Done st' →
     (∀ l content, files (fs st) !! l = Some content →
                   files (fs st') !! l = Some content) ∧
     match script_job root item with
     | Some j =>
         ∃ ready file_path l,
           makedirs (dirname (job_target j)) (fs st) = Done ready ∧
           allocated ready (job_target j) file_path ∧
           (plain_names root → allocated (fs st) (job_target j) file_path) ∧
           scripts_found st' = scripts_found st ++ [job_record j file_path] ∧
           locate (fs st') file_path = Some l ∧
           files (fs st) !! l = None ∧
           files (fs st') !! l = Some (job_source j)
     | None => scripts_found st' = scripts_found st
     end) ∧
  (∀ dir stem counter,
     numbered (dir ++ [stem +:+ ".lua"]) counter =
     dir ++ [stem +:+ "_" +:+ pretty counter +:+ ".lua"]) ∧
  (∃ st, extract_scripts_with_structure doc_two_utils = Done st ∧
         (script_path <$> scripts_found st,
          files (fs st) !! ["src"; "shared"; "Utils.lua"],
          files (fs st) !! ["src"; "shared"; "Utils_1.lua"]) =
         ([["src"; "shared"; "Utils.lua"]; ["src"; "shared"; "Utils_1.lua"]],
          Some "return 1", Some "return 2")).
Proof.
  intros Hwf.
  split; [apply extract_within_fuel|]. split; [|split; [|split; [|split]]].
  - intros st Hrun. destruct (extract_invariant world root st Hwf Hrun)
      as [_ _ _ _ _ Hnd _ _ _ _ _ _].
    unfold places_found in Hnd.
    rewrite (list_fmap_compose script_path (place (cwd world))) in Hnd.
    by apply NoDup_fmap_1 in Hnd.
  - apply run_upto_all.
  - intros k item st st' Hk Hrun Hrun'.
    destruct (run_upto_invariant world root k st Hwf Hrun)
      as [_ Hwfst _ _ _ _ _ _ _ _ _ _].
    rewrite (run_upto_succ _ _ _ _ Hk), Hrun in Hrun'.
    cbn [mbind outcome_bind] in Hrun'.
    apply process_item_Done in Hrun' as [_ Hstep]; [|done].
    destruct (script_job root item) as [j|] eqn:Hjob.
    + cbn zeta in Hstep.
      destruct Hstep as (ready & file_path & Hmk & Halloc & Hloc & Hnot & Hnone &
                         Hfs & Hfound & _).
      rewrite Hfs. cbn [files]. split.
      * intros l content Hl. rewrite lookup_insert_ne; [done|].
        intros <-. congruence.
      * exists ready, file_path, (place (cwd (fs st)) file_path).
        split; [done|]. split; [done|]. split; [|split; [done|split; [|split]]].
        -- intros Hplain.
           destruct (job_target_plain root item j Hplain) as (stem & Htarget & Hdir);
             [by eapply list_elem_of_lookup_2|done|].
           rewrite Htarget.
           apply (allocated_after_makedirs (fs st) _ ready stem file_path);
             [done|done|done|]. by rewrite <- Htarget.
        -- etrans; [|exact Hloc]. apply locate_same; cbn; [|done].
           by apply makedirs_Done in Hmk as (_ & -> & _).
        -- done.
        -- by rewrite lookup_insert_eq.
    + destruct Hstep as [Hfound Hfs]. split; [|done].
      destruct (folder_job root item) as [[svc dir]|].
      * destruct Hfs as [Hmk _].
        apply makedirs_Done in Hmk as (_ & _ & -> & _). done.
      * destruct Hfs as [-> _]. done.
  - apply numbered_lua.
  - apply run_observe. vm_compute. reflexivity.
Qed.

Lemma collision_suffixing_witness :
  ∃ st st', run_upto_in world_game doc_two_utils 2 = Done st ∧
            run_upto_in world_game doc_two_utils 3 = Done st' ∧
            (∀ l content, files (fs st) !! l = Some content →
                          files (fs st') !! l = Some content) ∧
            ∃ file_path l,
              allocated (fs st) ["src"; "shared"; "Utils.lua"] file_path ∧
              locate (fs st') file_path = Some l ∧
              files (fs st) !! l = None ∧
              files (fs st') !! l = Some "return 2".
Proof.
  destruct (run_upto_in world_game doc_two_utils 2) as [st| |] eqn:Hrun;
    [|vm_compute in Hrun; discriminate..].
  destruct (run_upto_in world_game doc_two_utils 3) as [st'| |] eqn:Hrun';
    [|vm_compute in Hrun'; discriminate..].
  exists st, st'. split; [reflexivity|]. split; [reflexivity|].
  destruct (collision_suffixing world_game doc_two_utils well_formed_world_game)
    as (_ & _ & _ & Hstep & _).
  pose proof (Hstep 2 ([0; 2], item "ModuleScript" [Name "Utils"; Source "return 2"] [])
                st st' eq_refl Hrun Hrun') as [Hkeep Hnew].
  split; [exact Hkeep|].
  assert (script_job doc_two_utils
            ([0; 2], item "ModuleScript" [Name "Utils"; Source "return 2"] []) =
          Some (mkJob "ModuleScript" "Utils" "ReplicatedStorage" ["Utils"] "return 2"))
    as Hjob by (vm_compute; reflexivity).
  rewrite Hjob in Hnew.
  destruct Hnew as (ready & file_path & l & _ & _ & Halloc & _ & Hloc & Hnone & Hfile).
  exists file_path, l. split; [|split; [exact Hloc|split; [exact Hnone|exact Hfile]]].
  apply Halloc. apply (bool_decide_unpack _). vm_compute. exact I.
Defined.




(** C8, as worded, fails: a place with scripts below [StarterPlayer] only
    leaves three first-level directories; [src/workspace] is not there. *)
Lemma three_base_directories_counterexample :
  ∃ st, extract_scripts_with_structure doc_starter = Done st ∧
        (["src"; "workspace"] ∉ dirs (fs st)) ∧
        ¬ four_base_directories st.
Proof.
  destruct (run_observe
              (λ st, bool_decide (["src"; "workspace"] ∈ dirs (fs st)))
              doc_starter false)
    as (st & Hrun & Hdir); [vm_compute; reflexivity|].
  apply bool_decide_eq_false in Hdir.
  exists st. split; [done|]. split; [done|]. intros Hfour.
  apply Hdir, Hfour. by apply (bool_decide_unpack _).
Qed.

(** The condition on the names cannot be dropped: a folder named [..]
    below [Workspace] stands for [src], so that the folder [evil] in it ends
    up as a first-level directory [src/evil], and the script [S] in it as
    [src/S.lua]; and a script in two such folders is written to the working
    directory, outside [src]. *)
Lemma dot_names_leave_base_directory :
  ¬ plain_names doc_dotdot ∧
  (∃ st, extract_scripts_with_structure doc_dotdot = Done st ∧
         (bool_decide (["src"; "evil"] ∈ dirs (fs st)),
          script_path <$> scripts_found st,
          files (fs st) !! ["src"; "S.lua"]) =
         (true, [["src"; "workspace"; ".."; "S.lua"]], Some "print(1)")) ∧
  (∃ st, extract_scripts_with_structure_in world_game doc_dotdot_twice = Done st ∧
         (script_path <$> scripts_found st,
          files (fs st) !! ["home"; "game"; "X.lua"]) =
         ([["src"; "workspace"; ".."; ".."; "X.lua"]], Some "print(1)")).
Proof.
  split; [|split].
  - intros Hplain. apply (bool_decide_pack _) in Hplain. vm_compute in Hplain.
    exact Hplain.
  - apply run_observe. vm_compute. reflexivity.
  - apply run_observe_in. vm_compute. reflexivity.
Qed.

(** C8, amended.  A run never reaches the bounds on the loops of the model.
    When nothing is at [src] at the start and no item of the document is
    named [.] or [..], then after a run that ends normally the first-level
    directories below [src] are [server], [client] and [shared], and
    [workspace] exactly when an item below the service [Workspace] asked for
    a directory, that is, when a script of that service was written or a
    folder of that service was created; there is no other. *)
Theorem first_level_directories world root :
  well_formed world → path_exists world ["src"] = false → plain_names root →
  extract_scripts_with_structure_in world root ≠ OutOfFuel ∧
  ∀ st,
    extract_scripts_with_structure_in world root = Done st →
    ∀ s, cwd world ++ ["src"; s] ∈ dirs (fs st) ↔
         s ∈ ["server"; "client"; "shared"] ∨
         s = "workspace" ∧
         ∃ item dir, item ∈ iter_tag "Item" root ∧
                     demand root item = Some ("Workspace", dir).
Proof.
  intros Hwf Habsent Hplain. split; [apply extract_within_fuel|].
  intros st Hrun s. destruct (extract_invariant world root st Hwf Hrun)
    as [_ _ Hdirs Hasked _ _ _ _ _ _ _ _].
  rewrite Hdirs. split.
  - intros [Hold|(_ & q & Hq & Heq)].
    { by apply below_src_absent in Hold. }
    rewrite place_plain in Heq by (by apply (asked_plain root)).
    apply app_inv_head in Heq. subst q.
    destruct Hq as [Hbase|(item & svc & dir & Hitem & Hdemand & Hprefix)].
    + left. unfold base_directories in Hbase. set_solver.
    + pose proof Hdemand as Hshape.
      apply demand_shape in Hshape as (Hs & rest & ->).
      destruct (service_base_dir_tag svc Hs) as (tagname & Hbase & Htag).
      rewrite Hbase in Hprefix. apply elem_of_prefixes in Hprefix as (n & Hn & Htake).
      assert (n = 2) as ->.
      { apply (f_equal length) in Htake. rewrite length_take in Htake.
        cbn [length app] in *. lia. }
      cbn in Htake. injection Htake as ->.
      destruct Htag as [[-> ->]|[_ Htag]]; [right|by left].
      split; [done|]. eexists item, _. split; [done|]. exact Hdemand.
  - intros Hs.
    assert (asked root (iter_tag "Item" root) ["src"; s]) as Hq.
    { destruct Hs as [Hs|(-> & item & dir & Hitem & Hdemand)].
      - left. unfold base_directories. set_solver.
      - right. exists item, "Workspace", dir. split; [done|]. split; [done|].
        apply demand_shape in Hdemand as (_ & rest & ->).
        apply (prefixes_app_l ["src"; "workspace"] rest), elem_of_prefixes.
        exists 2. split; [simpl; lia|done]. }
    right. split; [by destruct (cwd world)|]. exists ["src"; s].
    split; [done|]. symmetry. apply place_plain. by apply (asked_plain root).
Qed.

Lemma first_level_directories_witness :
  ∃ st, extract_scripts_with_structure_in world_game doc_foo = Done st ∧
        ∀ s, cwd world_game ++ ["src"; s] ∈ dirs (fs st) ↔
             s ∈ ["server"; "client"; "shared"] ∨
             s = "workspace" ∧
             ∃ item dir, item ∈ iter_tag "Item" doc_foo ∧
                         demand doc_foo item = Some ("Workspace", dir).
Proof.
  destruct (extract_scripts_with_structure_in world_game doc_foo)
    as [st| |] eqn:Hrun; [|vm_compute in Hrun; discriminate..].
  exists st. split; [reflexivity|].
  destruct (first_level_directories world_game doc_foo well_formed_world_game)
    as [_ Hall].
  - vm_compute. reflexivity.
  - apply (bool_decide_unpack _). vm_compute. exact I.
  - apply (Hall st Hrun).
Defined.

(** C9.  A run never reaches the bounds on the loops of the model.  In a
    run that ends normally the parent map is built once before the loop
    (lines 78-81) and once more in every call of [find_parent_service]
    (lines 22-26), that is, for every item with a name: the number of times
    it is built grows with the number of items. *)
Theorem parent_map_built_for_every_named_item root :
  extract_scripts_with_structure root ≠ OutOfFuel ∧
  ∀ st,
    extract_scripts_with_structure root = Done st →
    parent_map_builds st =
    1 + length (filter (λ item : node, is_Some (item_name_of item.2))
                       (iter_tag "Item" root)).
Proof.
  split; [apply extract_within_fuel|].
  intros st Hrun.
  by destruct (extract_invariant empty_fs root st well_formed_empty Hrun).
Qed.

Lemma parent_map_built_for_every_named_item_witness :
  ∃ st, extract_scripts_with_structure doc_utils = Done st ∧
        parent_map_builds st = 5.
Proof.
  destruct (extract_scripts_with_structure doc_utils) as [st| |] eqn:Hrun;
    [|vm_compute in Hrun; discriminate..].
  exists st. split; [reflexivity|].
  destruct (parent_map_built_for_every_named_item doc_utils) as [_ Hall].
  rewrite (Hall st Hrun). vm_compute. reflexivity.
Defined.

(** * Further properties of the code *)

(** ** The resolver *)

(** X1.  The dictionary of lines 22-26 (and 78-81) has an entry exactly for
    the elements of the document other than the root, and the entry of an
    element is its parent: the element one step up, with its own identity. *)
Theorem parent_map_gives_parent root :
  build_parent_map root !! [] = None ∧
  (∀ p i c, element_at root (p ++ [i]) = Some c →
            ∃ e, element_at root p = Some e ∧
                 build_parent_map root !! (p ++ [i]) = Some (p, e)) ∧
  (∀ q parent, build_parent_map root !! q = Some parent →
               element_at root parent.1 = Some parent.2 ∧
               ∃ i c, q = parent.1 ++ [i] ∧ children parent.2 !! i = Some c ∧
                      element_at root q = Some c).
Proof.
  split; [|split].
  - destruct (build_parent_map root !! []) as [[p e]|] eqn:Hroot; [|done].
    apply parent_map_lookup in Hroot as (_ & i & _ & Hnil). by destruct p.
  - apply parent_map_child.
  - intros q [p e] Hq. apply parent_map_lookup in Hq as (He & i & [c Hc] & ->).
    split; [done|]. exists i, c. cbn [fst snd]. split; [done|]. split; [done|].
    by rewrite element_at_snoc, He.
Qed.

Lemma walk_up_none_path pm fuel current acc path :
  walk_up pm fuel current acc = Some (None, path) → path = [].
Proof.
  revert current acc. induction fuel as [|fuel IH]; intros current acc; [done|].
  destruct current as [[p e]|]; [|by cbn; intros [= <-]].
  destruct (decide (p = [])) as [->|Hp]; [by cbn; intros [= <-]|].
  rewrite walk_up_step by done.
  destruct (named e) as [n|]; [|apply IH].
  destruct (decide (n ∈ service_names)); [done|apply IH].
Qed.

(** X2.  From whatever element it starts, the loop of lines 32-41 comes to
    an end: at every round it leaves an element for its parent, which lies
    one step nearer to the root.  When it ends without a service, the path
    is empty. *)
Theorem find_parent_service_terminates element root :
  ∃ service_name path,
    find_parent_service element root = Some (service_name, path) ∧
    (service_name = None → path = []).
Proof.
  destruct (find_parent_service_total element root) as [[service path] Hfind].
  exists service, path. split; [done|]. intros ->.
  by eapply walk_up_none_path.
Qed.

Lemma walk_up_path_segments pm fuel current acc service_name path :
  Forall (λ n, n ≠ "" ∧ n ∉ service_names) acc →
  walk_up pm fuel current acc = Some (service_name, path) →
  Forall (λ n, n ≠ "" ∧ n ∉ service_names) path.
Proof.
  revert current acc. induction fuel as [|fuel IH]; intros current acc Hacc; [done|].
  destruct current as [[p e]|]; [|by cbn; intros [= _ <-]].
  destruct (decide (p = [])) as [->|Hp]; [by cbn; intros [= _ <-]|].
  rewrite walk_up_step by done. unfold named.
  destruct (decide (tag e = "Item")); [|by apply IH].
  destruct (item_name_of e) as [n|] eqn:Hn; [|by apply IH].
  destruct (decide (n ∈ service_names)).
  - intros [= _ <-]. by apply Forall_reverse.
  - apply IH. apply Forall_app. split; [done|]. constructor; [|done].
    split; [|done]. unfold item_name_of in Hn.
    destruct (find_property "string" "Name" e) as [name_elem|]; [|done].
    cbn in Hn. by apply truthy_Some in Hn as [_ ?].
Qed.

(** X3.  The service that [find_parent_service] returns is one of the six
    names, each of which has a base directory, so that the test of line 96
    for a service without entry in [service_mapping] never succeeds; and
    the segments of the path it returns are non-empty and none of them is
    the name of a service. *)
Theorem find_parent_service_result element root service_name path :
  find_parent_service element root = Some (Some service_name, path) →
  service_name ∈ service_names ∧
  is_Some (assoc service_name service_mapping) ∧
  Forall (λ n, n ≠ "" ∧ n ∉ service_names) path.
Proof.
  intros Hfind. pose proof (find_parent_service_in_names _ _ _ _ Hfind) as Hs.
  split; [done|]. split.
  - destruct (service_base_dir service_name Hs) as (tagname & -> & _). by eexists.
  - unfold find_parent_service in Hfind.
    by eapply walk_up_path_segments in Hfind.
Qed.

Lemma find_parent_service_result_witness :
  "Workspace" ∈ service_names ∧
  is_Some (assoc "Workspace" service_mapping) ∧
  Forall (λ n, n ≠ "" ∧ n ∉ service_names) ["Foo"].
Proof.
  apply (find_parent_service_result ([0; 1], foo_script) doc_foo "Workspace" ["Foo"]).
  reflexivity.
Defined.

Lemma scan_accumulated chain pre path :
  scan chain (pre ++ path) =
  match scan chain path with
  | (Some s, below) => (Some s, below ++ reverse pre)
  | (None, _) => (None, [])
  end.
Proof.
  revert path. induction chain as [|e chain IH]; intros path; [done|].
  cbn [scan]. destruct (named e) as [n|]; [|apply IH].
  destruct (decide (n ∈ service_names)); [by rewrite reverse_app|].
  rewrite <- app_assoc. apply IH.
Qed.

Lemma scan_no_service_path chain path s below :
  scan chain path = (s, below) → s = None → below = [].
Proof.
  revert path. induction chain as [|e chain IH]; intros path; [by intros [= <- <-]|].
  cbn [scan]. destruct (named e) as [n|]; [|apply IH].
  destruct (decide (n ∈ service_names)); [by intros [= <- _]|apply IH].
Qed.

Lemma resolve_child root p i c e :
  element_at root (p ++ [i]) = Some c →
  element_at root p = Some e →
  find_parent_service (p ++ [i], c) root =
  match service_named c with
  | Some s => Some (Some s, [])
  | None =>
      match find_parent_service (p, e) root with
      | Some (Some s, path) => Some (Some s, path ++ option_list (named c))
      | _ => Some (None, [])
      end
  end.
Proof.
  intros Hc He.
  rewrite (find_parent_service_scan _ _ _ Hc), (find_parent_service_scan _ _ _ He).
  rewrite (way_down_snoc _ _ _ _ Hc), reverse_snoc. cbn [scan].
  unfold service_named. destruct (named c) as [n|]; cbn [mbind option_bind option_list].
  - destruct (decide (n ∈ service_names)); [done|].
    rewrite (scan_accumulated _ [n] []).
    destruct (scan (reverse (way_down root p)) []) as [[s|] below]; done.
  - destruct (scan (reverse (way_down root p)) []) as [[s|] below] eqn:Hscan.
    + by rewrite app_nil_r.
    + by rewrite (scan_no_service_path _ _ _ _ Hscan).
Qed.

(** X4.  The resolution of a child follows from that of its parent.  A child
    that is an item named after a service gets that service and the empty
    path.  Any other child gets the service of its parent, with the path of
    the parent followed by the child's own name if it has one, and no
    service if the parent has none. *)
Theorem find_parent_service_child root p i c e :
  element_at root (p ++ [i]) = Some c →
  element_at root p = Some e →
  find_parent_service (p ++ [i], c) root =
  match service_named c with
  | Some s => Some (Some s, [])
  | None =>
      match find_parent_service (p, e) root with
      | Some (Some s, path) => Some (Some s, path ++ option_list (named c))
      | _ => Some (None, [])
      end
  end.
Proof. apply resolve_child. Qed.

Lemma find_parent_service_child_witness :
  find_parent_service ([0; 1], foo_script) doc_foo =
  Some (Some "Workspace", [] ++ option_list (named foo_script)).
Proof.
  apply (find_parent_service_child doc_foo [0] 1 foo_script workspace_item);
    reflexivity.
Defined.

(** ** Sanitization *)

Lemma clean_char_valid c : invalid_char (clean_char c) = false.
Proof.
  unfold clean_char. destruct (invalid_char c) eqn:Hc; [|done].
  by vm_compute.
Qed.

(** X5.  A sanitized name holds none of the nine characters: in
    particular no slash, so that a name never adds a level to a path. *)
Theorem clean_name_is_clean name i c :
  String.get i (clean_name name) = Some c →
  invalid_char c = false ∧ c ≠ "/"%char.
Proof.
  unfold clean_name. rewrite map_get.
  destruct (String.get i name) as [c'|]; [|done]. intros [= <-].
  split; [apply clean_char_valid|].
  intros Hslash. pose proof (clean_char_valid c') as Hvalid.
  rewrite Hslash in Hvalid. by vm_compute in Hvalid.
Qed.

Lemma clean_name_is_clean_witness :
  invalid_char "_" = false ∧ "_"%char ≠ "/"%char.
Proof. apply (clean_name_is_clean "a/b" 1 "_"). reflexivity. Defined.

Lemma string_get_cons_Some c s i x :
  String.get (S i) (String c s) = Some x ↔ String.get i s = Some x.
Proof. done. Qed.

(** X6.  A name stays as it is exactly when it holds none of the nine
    characters; and sanitizing works character by character, so that the
    sanitized form of a concatenation is the concatenation of the sanitized
    forms. *)
Theorem clean_name_fixed_points name :
  (clean_name name = name ↔
   ∀ i c, String.get i name = Some c → invalid_char c = false) ∧
  (∀ other, clean_name (name +:+ other) = clean_name name +:+ clean_name other).
Proof.
  unfold clean_name. split.
  - induction name as [|c name IH]; cbn [Str.map].
    + split; [by intros _ [|i] c|done].
    + split.
      * intros [= Hc Hname] [|i] x; cbn.
        -- intros [= <-]. unfold clean_char in Hc.
           by destruct (invalid_char c) eqn:Hinv; [rewrite <- Hc in Hinv|].
        -- by apply IH.
      * intros Hall. f_equal.
        -- unfold clean_char. by rewrite (Hall 0 c eq_refl).
        -- apply IH. intros i x Hx. by apply (Hall (S i) x).
  - intros other. induction name as [|c name IH]; [done|].
    cbn [Str.map]. change (String ?a ?s +:+ ?t) with (String a (s +:+ t)).
    cbn [Str.map]. by rewrite IH.
Qed.

(** ** The output tree *)

Lemma string_app_assoc s t u : (s +:+ t) +:+ u = s +:+ (t +:+ u).
Proof.
  induction s as [|c s IH]; [done|].
  change (String c s +:+ t) with (String c (s +:+ t)).
  change (String c (s +:+ t) +:+ u) with (String c ((s +:+ t) +:+ u)).
  by rewrite IH.
Qed.

Lemma clean_name_nonempty name : name ≠ "" → clean_name name ≠ "".
Proof. by destruct name. Qed.

Lemma string_app_nonempty s t : s ≠ "" → s +:+ t ≠ "".
Proof. by destruct s. Qed.

Lemma item_name_of_nonempty e name : item_name_of e = Some name → name ≠ "".
Proof.
  unfold item_name_of.
  destruct (find_property "string" "Name" e) as [name_elem|]; [|done].
  cbn. intros Hn. by apply truthy_Some in Hn as [_ ?].
Qed.

(** The computed file path, segment by segment. *)
Lemma script_target_segments (P : string → Prop) base name path :
  name ≠ "" → Forall (λ n, n ≠ "" ∧ P n) path →
  ∃ names leaf,
    Forall (λ n, n ≠ "" ∧ P n) names ∧ leaf ≠ "" ∧
    (script_target base name path).2 =
    base ++ (clean_name <$> names) ++ [clean_name leaf +:+ ".lua"].
Proof.
  intros Hname Hpath. unfold script_target, join. destruct path as [|seg path].
  - exists [], name. done.
  - exists (all_but_last (seg :: path)), (List.last (seg :: path) "").
    split; [by apply removelast_Forall|].
    split; [by apply (last_Forall (λ n, n ≠ "" ∧ P n))|].
    destruct (clean_name <$> all_but_last (seg :: path)) eqn:Hparts; cbn [snd].
    + done.
    + by rewrite <- app_assoc.
Qed.

(** The path of a script that has been written, segment by segment. *)
Lemma record_path_segments root item j file_path :
  item ∈ iter_tag "Item" root → script_job root item = Some j →
  file_path = job_target j ∨
  (∃ counter, file_path = numbered (job_target j) counter) →
  ∃ tagname names stem,
    assoc (job_service j) service_mapping = Some ["src"; tagname] ∧
    tagname ∈ ["server"; "client"; "shared"; "workspace"] ∧
    Forall (λ n, n ≠ "" ∧ (plain_names root → ¬ dot_segment n)) names ∧
    stem ≠ "" ∧
    file_path = ["src"; tagname] ++ (clean_name <$> names) ++ [stem +:+ ".lua"].
Proof.
  intros Hitem Hjob Hpath. destruct item as [p e].
  apply elem_of_iter_tag in Hitem as [_ He].
  apply script_job_Some in Hjob as (_ & _ & Hname & Hfind & _).
  apply item_name_of_nonempty in Hname.
  pose proof (find_parent_service_in_names _ _ _ _ Hfind) as Hs.
  pose proof Hfind as Hnonempty. apply walk_up_path_segments in Hnonempty; [|done].
  destruct (service_base_dir _ Hs) as (tagname & Hbase & Htag).
  destruct (script_target_segments (λ n, plain_names root → ¬ dot_segment n)
              ["src"; tagname] (job_name j)
              (starter_player_rule (job_service j) (job_path j)))
    as (names & leaf & Hnames & Hleaf & Htarget); [done| |].
  { apply starter_player_rule_Forall, Forall_forall. intros n Hn. split.
    - rewrite Forall_forall in Hnonempty. by apply Hnonempty.
    - intros Hplain.
      pose proof (find_parent_service_plain _ _ _ _ _ Hplain He Hfind) as Hp.
      rewrite Forall_forall in Hp. by apply Hp. }
  assert (job_target j =
          (["src"; tagname] ++ (clean_name <$> names)) ++ [clean_name leaf +:+ ".lua"])
    as Hjt.
  { rewrite <- app_assoc, <- Htarget. unfold job_target, base_dir_of.
    by rewrite Hbase. }
  exists tagname, names.
  destruct Hpath as [->|(c & ->)].
  - exists (clean_name leaf). split; [done|]. split; [done|]. split; [done|].
    split; [by apply clean_name_nonempty|]. by rewrite Hjt, <- app_assoc.
  - exists (clean_name leaf +:+ "_" +:+ pretty c). split; [done|]. split; [done|].
    split; [done|].
    split; [by apply string_app_nonempty, clean_name_nonempty|].
    rewrite Hjt, numbered_lua, <- app_assoc. do 3 f_equal.
    by rewrite !string_app_assoc.
Qed.

Lemma records_segments world root st r :
  invariant world root (iter_tag "Item" root) st → r ∈ scripts_found st →
  ∃ tagname names stem,
    assoc (script_service r) service_mapping = Some ["src"; tagname] ∧
    tagname ∈ ["server"; "client"; "shared"; "workspace"] ∧
    Forall (λ n, n ≠ "" ∧ (plain_names root → ¬ dot_segment n)) names ∧
    stem ≠ "" ∧
    script_path r =
      ["src"; tagname] ++ (clean_name <$> names) ++ [stem +:+ ".lua"].
Proof.
  intros Hinv Hr. destruct Hinv as [_ _ _ _ Hrec _ _ _ _ _ _ _].
  apply list_elem_of_lookup in Hr as [i Hi].
  destruct (Forall2_lookup_r _ _ _ _ _ Hrec Hi)
    as (j & Hj & file_path & -> & _ & _ & Hpath).
  apply list_elem_of_lookup_2, list_elem_of_omap in Hj as (item & Hitem & Hjob).
  cbn [job_record script_service script_path].
  by eapply record_path_segments.
Qed.

Lemma record_path_plain root tagname names stem :
  plain_names root →
  tagname ∈ ["server"; "client"; "shared"; "workspace"] →
  Forall (λ n, n ≠ "" ∧ (plain_names root → ¬ dot_segment n)) names →
  Forall (λ n, ¬ dot_segment n)
         (["src"; tagname] ++ (clean_name <$> names) ++ [stem +:+ ".lua"]).
Proof.
  intros Hplain Htag Hnames. apply Forall_app. split; [by apply base_dir_plain|].
  apply Forall_app. split.
  - apply clean_names_plain. eapply Forall_impl; [exact Hnames|].
    intros n [_ Hn]. by apply Hn.
  - constructor; [apply lua_name_plain|done].
Qed.



(** X8.  After a run that ends normally every path in [folder_structure]
    leads to a directory; when no item of the document is named [.] or [..],
    this directory is at the path itself below the working directory. *)
Theorem folder_structure_exists world root st :
  well_formed world →
  extract_scripts_with_structure_in world root = Done st →
  ∀ d, d ∈ folder_structure st →
       ∃ l, locate (fs st) d = Some l ∧ is_dir (fs st) l = true ∧
            (plain_names root → l = cwd world ++ d).
Proof.
  intros Hwf Hrun d Hd.
  destruct (extract_invariant world root st Hwf Hrun)
    as [_ _ _ Hasked _ _ _ _ _ Hfolders _ _].
  destruct (Hfolders d Hd) as (item & svc & Hitem & Hdemand).
  assert (asked root (iter_tag "Item" root) d) as Hq.
  { right. exists item, svc, d. split; [done|]. split; [done|].
    apply prefixes_self. apply demand_shape in Hdemand as (Hs & rest & ->).
    destruct (service_base_dir_tag svc Hs) as (tagname & -> & _). done. }
  destruct (Hasked d Hq) as [Hloc Hdir].
  exists (place (cwd world) d). split; [done|]. split; [done|].
  intros Hplain. apply place_plain. by apply (asked_plain root).
Qed.

Lemma folder_structure_exists_witness :
  ∃ st, extract_scripts_with_structure_in world_game doc_twins = Done st ∧
        ∀ d, d ∈ folder_structure st →
             ∃ l, locate (fs st) d = Some l ∧ is_dir (fs st) l = true ∧
                  (plain_names doc_twins → l = cwd world_game ++ d).
Proof.
  destruct (extract_scripts_with_structure_in world_game doc_twins)
    as [st| |] eqn:Hrun; [|vm_compute in Hrun; discriminate..].
  exists st. split; [reflexivity|].
  apply (folder_structure_exists world_game doc_twins st well_formed_world_game Hrun).
Defined.



(** X10.  When no item of the document is named [.] or [..], then after a
    run that ends normally every script that was written has its file in
    the base directory of its service or in folders below it: the path is
    that base directory, followed by the sanitized names of folders, none of
    them empty, [.] or [..], and by a non-empty stem with [.lua], and the
    file is at this very path below the working directory. *)
Theorem written_files_location world root st :
  well_formed world → plain_names root →
  extract_scripts_with_structure_in world root = Done st →
  Forall (λ r, ∃ tagname names stem,
            assoc (script_service r) service_mapping = Some ["src"; tagname] ∧
            Forall (λ n, n ≠ "" ∧ ¬ dot_segment n) names ∧ stem ≠ "" ∧
            script_path r =
              ["src"; tagname] ++ (clean_name <$> names) ++ [stem +:+ ".lua"] ∧
            locate (fs st) (script_path r) = Some (cwd world ++ script_path r) ∧
            is_Some (files (fs st) !! (cwd world ++ script_path r)))
         (scripts_found st).
Proof.
  intros Hwf Hplain Hrun.
  pose proof (extract_invariant world root st Hwf Hrun) as Hinv.
  apply Forall_forall. intros r Hr.
  destruct (records_segments world root st r Hinv Hr)
    as (tagname & names & stem & Hbase & Htag & Hnames & Hstem & Hpath).
  destruct (records_located world root _ st r Hinv Hr) as [Hloc Hfile].
  pose proof (record_path_plain root tagname names stem Hplain Htag Hnames) as Hp.
  rewrite <- Hpath in Hp. rewrite place_plain in Hloc, Hfile by done.
  exists tagname, names, stem. split; [done|]. split; [|done].
  eapply Forall_impl; [exact Hnames|]. intros n [? Hn]. split; [done|by apply Hn].
Qed.

Lemma written_files_location_witness :
  ∃ st, extract_scripts_with_structure_in world_game doc_utils = Done st ∧
        Forall (λ r, ∃ tagname names stem,
                  assoc (script_service r) service_mapping = Some ["src"; tagname] ∧
                  Forall (λ n, n ≠ "" ∧ ¬ dot_segment n) names ∧ stem ≠ "" ∧
                  script_path r =
                    ["src"; tagname] ++ (clean_name <$> names) ++ [stem +:+ ".lua"] ∧
                  locate (fs st) (script_path r) =
                    Some (cwd world_game ++ script_path r) ∧
                  is_Some (files (fs st) !! (cwd world_game ++ script_path r)))
               (scripts_found st).
Proof.
  destruct (extract_scripts_with_structure_in world_game doc_utils)
    as [st| |] eqn:Hrun; [|vm_compute in Hrun; discriminate..].
  exists st. split; [reflexivity|].
  apply (written_files_location world_game doc_utils st well_formed_world_game).
  - apply (bool_decide_unpack _). vm_compute. exact I.
  - exact Hrun.
Defined.

Lemma starter_player_rule_snoc s path leaf :
  path ≠ [] →
  starter_player_rule s (path ++ [leaf]) = starter_player_rule s path ++ [leaf].
Proof.
  intros Hpath. unfold starter_player_rule. case_decide; [|done].
  destruct path as [|seg path]; [done|]. cbn [app]. by case_decide.
Qed.

(** X11.  A script that lies directly in an element with the service [s]
    and the path [path], and is not itself named after a service, has the
    service [s] and the path [path] followed by its own name, and its file
    is written to the directory of the sanitized [path] below the base
    directory of [s], after the rule of [StarterPlayer] has been applied to
    [path].  For a folder, lines 155-159 create the directory of the
    sanitized [path] without that rule: the scripts of a folder lie in the
    directory of the folder, except below [StarterPlayerScripts]. *)
Theorem script_lies_in_directory_of_parent root p i e c s path j :
  element_at root p = Some e →
  (p ++ [i], c) ∈ iter_tag "Item" root →
  find_parent_service (p, e) root = Some (Some s, path) →
  script_job root (p ++ [i], c) = Some j →
  job_name j ∉ service_names →
  job_service j = s ∧
  job_path j = path ++ [job_name j] ∧
  dirname (job_target j) =
    join (base_dir_of s) (clean_name <$> starter_player_rule s path) ∧
  (∀ s' dir, folder_job root (p, e) = Some (s', dir) →
             s' = s ∧ dir = join (base_dir_of s) (clean_name <$> path)).
Proof.
  intros He Hitem Hparent Hjob Hname.
  apply elem_of_iter_tag in Hitem as [Htag Hc].
  apply script_job_Some in Hjob as (_ & _ & Hcn & Hfind & _). cbn [snd] in Hcn.
  rewrite (resolve_child _ _ _ _ _ Hc He), Hparent in Hfind.
  assert (named c = Some (job_name j)) as Hnamed
    by (unfold named; by rewrite decide_True).
  unfold service_named in Hfind. rewrite Hnamed in Hfind.
  cbn [mbind option_bind option_list] in Hfind.
  rewrite decide_False in Hfind by done. injection Hfind as Hs Hpath.
  split; [done|]. split; [done|]. split.
  - unfold job_target. rewrite script_target_dirname, <- Hs, <- Hpath. unfold join.
    f_equal. f_equal. destruct path as [|seg path].
    + unfold starter_player_rule. cbn [app]. by repeat case_decide.
    + rewrite starter_player_rule_snoc by done. unfold all_but_last.
      by rewrite removelast_last.
  - intros s' dir. unfold folder_job. cbn [snd].
    destruct (get "class" e) as [cls|]; cbn [mbind option_bind]; [|done].
    destruct (decide (cls = "Folder")); [|done].
    destruct (item_name_of e) as [nm|]; cbn [mbind option_bind]; [|done].
    rewrite Hparent. cbn [resolved mbind option_bind fmap option_fmap option_map
      fst snd].
    destruct path as [|seg path]; [done|]. by intros [= <- <-].
Qed.

Lemma script_lies_in_directory_of_parent_witness :
  ∃ j, script_job doc_twins ([0; 1; 1], item "Script" [Name "S"; Source "print(1)"] [])
       = Some j ∧
       dirname (job_target j) =
         join (base_dir_of "Workspace")
              (clean_name <$> starter_player_rule "Workspace" ["A"]) ∧
       (∀ s' dir, folder_job doc_twins ([0; 1], folder_A_1) = Some (s', dir) →
                  s' = "Workspace" ∧
                  dir = join (base_dir_of "Workspace") (clean_name <$> ["A"])).
Proof.
  eexists. split; [vm_compute; reflexivity|].
  apply (script_lies_in_directory_of_parent doc_twins [0; 1] 1 folder_A_1
           (item "Script" [Name "S"; Source "print(1)"] []) "Workspace" ["A"]).
  - reflexivity.
  - apply elem_of_iter_tag. split; reflexivity.
  - vm_compute; reflexivity.
  - vm_compute; reflexivity.
  - cbn [job_name]. unfold service_names. by apply (bool_decide_unpack _).
Defined.

(** ** The summary *)

Lemma split_on_nonempty sep s : split_on sep s ≠ [].
Proof.
  destruct s as [|c s]; [done|]. cbn [split_on]. case_decide; [done|].
  by destruct (split_on sep s).
Qed.

Lemma split_on_cons_sep sep s :
  split_on sep (String sep s) = "" :: split_on sep s.
Proof. cbn [split_on]. by rewrite decide_True. Qed.

Lemma split_on_cons_other sep c s :
  c ≠ sep →
  split_on sep (String c s) =
  String c (hd "" (split_on sep s)) :: tl (split_on sep s).
Proof.
  intros Hc. cbn [split_on]. rewrite decide_False by done.
  pose proof (split_on_nonempty sep s). by destruct (split_on sep s).
Qed.

Lemma string_concat_cons2 sep x y l :
  String.concat sep (x :: y :: l) = x +:+ sep +:+ String.concat sep (y :: l).
Proof. done. Qed.

(** Joining the pieces of a split gives the string back. *)
Lemma join_split sep s :
  String.concat (String sep "") (split_on sep s) = s.
Proof.
  induction s as [|c s IH]; [done|].
  destruct (decide (c = sep)) as [->|Hc].
  - rewrite split_on_cons_sep.
    pose proof (split_on_nonempty sep s) as Hne.
    destruct (split_on sep s) as [|w ws] eqn:Hsplit; [done|].
    rewrite string_concat_cons2, IH. done.
  - rewrite split_on_cons_other by done.
    pose proof (split_on_nonempty sep s) as Hne.
    destruct (split_on sep s) as [|w ws] eqn:Hsplit; [done|]. cbn [hd tl].
    destruct ws as [|w' ws].
    + cbn in IH. cbn. by rewrite IH.
    + rewrite string_concat_cons2 in *.
      change (String c w +:+ ?t) with (String c (w +:+ t)). by rewrite IH.
Qed.

Lemma free_of_cons sep c s :
  free_of sep (String c s) ↔ c ≠ sep ∧ free_of sep s.
Proof.
  unfold free_of. split.
  - intros Hfree. split; [intros ->; by apply (Hfree 0)|].
    intros i. apply (Hfree (S i)).
  - intros [Hc Hfree] [|i]; cbn; [congruence|apply Hfree].
Qed.

Lemma free_of_empty sep : free_of sep "".
Proof. by intros [|i]. Qed.

Ltac solve_free_of :=
  repeat (apply free_of_cons; split; [discriminate|]); apply free_of_empty.

Lemma split_on_app_free sep s t :
  free_of sep s →
  split_on sep (s +:+ t) =
  (s +:+ hd "" (split_on sep t)) :: tl (split_on sep t).
Proof.
  induction s as [|c s IH]; intros Hfree.
  - change ("" +:+ ?x) with x.
    pose proof (split_on_nonempty sep t). by destruct (split_on sep t).
  - apply free_of_cons in Hfree as [Hc Hfree].
    change (String c s +:+ ?x) with (String c (s +:+ x)).
    rewrite split_on_cons_other by done. by rewrite IH.
Qed.

Lemma string_app_empty_r s : s +:+ "" = s.
Proof.
  induction s as [|c s IH]; [done|].
  change (String c s +:+ "") with (String c (s +:+ "")). by rewrite IH.
Qed.

Lemma split_on_free sep s : free_of sep s → split_on sep s = [s].
Proof.
  intros Hfree. rewrite <- (string_app_empty_r s) at 1.
  rewrite (split_on_app_free _ _ _ Hfree). cbn. by rewrite string_app_empty_r.
Qed.

Lemma split_join sep pieces :
  pieces ≠ [] → Forall (free_of sep) pieces →
  split_on sep (String.concat (String sep "") pieces) = pieces.
Proof.
  intros Hne Hall. induction Hall as [|x l Hx Hl IH]; [done|].
  destruct l as [|y l]; [by apply split_on_free|].
  rewrite string_concat_cons2, (split_on_app_free _ _ _ Hx).
  change (String sep "" +:+ ?t) with (String sep t).
  rewrite split_on_cons_sep. cbn [hd tl]. rewrite string_app_empty_r.
  by rewrite IH.
Qed.

Lemma last_cons_default {A : Type} (x d : A) l :
  List.last (x :: l) d = List.last l x.
Proof.
  revert x d. induction l as [|y l IH]; intros x d; [done|].
  change (List.last (x :: y :: l) d) with (List.last (y :: l) d).
  by rewrite !IH.
Qed.

(** X12.  The summary lists a script under its first folder when its path
    below the service, after the rule of [StarterPlayer], has at least two
    segments, and as a root script otherwise; the name shown for it is its
    last segment.  This holds when neither the service nor a segment holds
    a slash. *)
Theorem first_folder_of_record j file_path :
  Forall (free_of "/")
    (job_service j :: starter_player_rule (job_service j) (job_path j)) →
  first_folder (script_full_path (job_record j file_path)) =
    match starter_player_rule (job_service j) (job_path j) with
    | folder :: _ :: _ => Some folder
    | _ => None
    end ∧
  last_part (script_full_path (job_record j file_path)) =
    List.last (starter_player_rule (job_service j) (job_path j)) (job_service j).
Proof.
  intros Hfree. unfold first_folder, last_part. cbn [job_record script_full_path].
  rewrite split_join by done.
  destruct (starter_player_rule (job_service j) (job_path j)) as [|a [|b l]].
  - rewrite decide_False by (cbn; lia). split; reflexivity.
  - rewrite decide_False by (cbn; lia). split; reflexivity.
  - rewrite decide_True by (cbn; lia). split; [reflexivity|].
    apply last_cons_default.
Qed.

Lemma first_folder_of_record_witness :
  first_folder (script_full_path
     (job_record (mkJob "Script" "S" "Workspace" ["A"; "S"] "print(1)") [])) =
    Some "A" ∧
  last_part (script_full_path
     (job_record (mkJob "Script" "S" "Workspace" ["A"; "S"] "print(1)") [])) = "S".
Proof.
  apply (first_folder_of_record (mkJob "Script" "S" "Workspace" ["A"; "S"] "print(1)") []).
  repeat constructor; solve_free_of.
Defined.

Lemma by_service_foldl (scripts : list ScriptInfo) (m : gmap string (list string)) s :
  foldl (λ by_service script,
           <[script_service script :=
               default [] (by_service !! script_service script)
                 ++ [script_full_path script]]> by_service) m scripts !! s =
  match script_full_path <$> filter (λ r, script_service r = s) scripts with
  | [] => m !! s
  | l => Some (default [] (m !! s) ++ l)
  end.
Proof.
  revert m. induction scripts as [|r scripts IH]; intros m; [done|].
  cbn [foldl]. rewrite IH, filter_cons.
  destruct (decide (script_service r = s)) as [<-|Hne].
  - rewrite lookup_insert_eq. cbn [fmap list_fmap default].
    destruct (script_full_path <$> filter _ scripts) as [|x l]; simpl.
    + done.
    + by rewrite <- app_assoc.
  - by rewrite lookup_insert_ne.
Qed.

(** X13.  The grouping of lines 166-171 gives every service that has a
    script the full paths of its scripts, in the order in which they were
    extracted, and has no entry for any other service. *)
Theorem by_service_groups scripts s :
  by_service scripts !! s =
  match script_full_path <$> filter (λ r, script_service r = s) scripts with
  | [] => None
  | l => Some l
  end.
Proof. unfold by_service. by rewrite by_service_foldl, lookup_empty. Qed.

Lemma sum_insert_fresh {V : Type} (w : V → nat) (m : gmap string V) k v :
  m !! k = None →
  sum_list_with (λ kv, w kv.2) (map_to_list (<[k := v]> m)) =
  w v + sum_list_with (λ kv : string * V, w kv.2) (map_to_list m).
Proof. intros Hk. by rewrite map_to_list_insert. Qed.

Lemma sum_insert {V : Type} (w : V → nat) (m : gmap string V) k v :
  sum_list_with (λ kv, w kv.2) (map_to_list (<[k := v]> m)) +
    from_option w 0 (m !! k) =
  w v + sum_list_with (λ kv : string * V, w kv.2) (map_to_list m).
Proof.
  destruct (m !! k) as [old|] eqn:Hk; cbn [from_option].
  - rewrite <- (insert_delete_eq m k v).
    rewrite sum_insert_fresh by apply lookup_delete_eq.
    rewrite <- (insert_id m k old Hk) at 2. rewrite <- (insert_delete_eq m k old).
    rewrite (sum_insert_fresh w (delete k m) k old) by apply lookup_delete_eq.
    lia.
  - rewrite sum_insert_fresh by done. lia.
Qed.

Lemma sum_sorted_items {V : Type} (w : V → nat) (m : gmap string V) :
  sum_list_with (λ kv, w kv.2) (sorted_items m) =
  sum_list_with (λ kv : string * V, w kv.2) (map_to_list m).
Proof. unfold sorted_items. by rewrite merge_sort_Permutation. Qed.

Lemma by_service_total scripts :
  sum_list_with (λ kv : string * list string, length kv.2)
    (map_to_list (by_service scripts)) = length scripts.
Proof.
  unfold by_service.
  assert (∀ m : gmap string (list string),
    sum_list_with (λ kv : string * list string, length kv.2)
      (map_to_list (foldl (λ by_service script,
           <[script_service script :=
               default [] (by_service !! script_service script)
                 ++ [script_full_path script]]> by_service) m scripts)) =
    sum_list_with (λ kv : string * list string, length kv.2) (map_to_list m)
      + length scripts) as Hgen.
  { induction scripts as [|r scripts IH]; intros m; cbn [foldl length]; [lia|].
    rewrite IH.
    pose proof (sum_insert length m (script_service r)
                  (default [] (m !! script_service r) ++ [script_full_path r]))
      as Hins.
    rewrite length_app in Hins. cbn [length] in Hins.
    destruct (m !! script_service r); simpl in *; lia. }
  rewrite Hgen, map_to_list_empty. done.
Qed.

Lemma group_foldl paths (folders : gmap string nat) (root_scripts : list string) :
  let result :=
    foldl (λ '(folders, root_scripts) path,
             match first_folder path with
             | Some folder =>
                 (<[folder := S (default 0 (folders !! folder))]> folders,
                  root_scripts)
             | None => (folders, root_scripts ++ [path])
             end) (folders, root_scripts) paths in
  result.2 = root_scripts ++ filter (λ p, first_folder p = None) paths ∧
  (∀ folder,
     result.1 !! folder =
     match length (filter (λ p, first_folder p = Some folder) paths) with
     | O => folders !! folder
     | S n => Some (default 0 (folders !! folder) + S n)
     end) ∧
  sum_list_with (λ kv : string * nat, kv.2) (map_to_list result.1) + length result.2 =
  sum_list_with (λ kv : string * nat, kv.2) (map_to_list folders)
    + length root_scripts + length paths.
Proof.
  revert folders root_scripts.
  induction paths as [|path paths IH]; intros folders root_scripts.
  { cbn. split; [by rewrite app_nil_r|]. split; [done|lia]. }
  cbn [foldl]. rewrite filter_cons.
  destruct (first_folder path) as [folder|] eqn:Hfirst.
  - specialize (IH (<[folder := S (default 0 (folders !! folder))]> folders)
                   root_scripts).
    cbn zeta in *. destruct IH as (Hroots & Hfolders & Hsum).
    rewrite decide_False by done. split; [done|]. split.
    + intros folder'. rewrite Hfolders, filter_cons.
      destruct (decide (folder = folder')) as [<-|Hne].
      * rewrite lookup_insert_eq, decide_True by done. cbn [length].
        destruct (folders !! folder), (length (filter _ paths)); simpl;
          f_equal; lia.
      * rewrite lookup_insert_ne, decide_False by congruence. done.
    + rewrite Hsum.
      pose proof (sum_insert id folders folder (S (default 0 (folders !! folder))))
        as Hins.
      destruct (folders !! folder); simpl in *; lia.
  - specialize (IH folders (root_scripts ++ [path])).
    cbn zeta in *. destruct IH as (Hroots & Hfolders & Hsum).
    rewrite decide_True by done. split; [by rewrite Hroots, <- app_assoc|].
    split.
    + intros folder'. rewrite Hfolders, filter_cons.
      case_decide as Hd; [cbn in Hd; congruence|done].
    + rewrite Hsum, length_app. cbn. lia.
Qed.

(** X14.  The grouping of lines 177-187 keeps the root scripts in their
    order and counts, for every folder, the paths that are listed under it;
    a folder without such a path has no entry. *)
Theorem group_by_first_folder_counts paths :
  (group_by_first_folder paths).2 = filter (λ p, first_folder p = None) paths ∧
  ∀ folder,
    (group_by_first_folder paths).1 !! folder =
    match length (filter (λ p, first_folder p = Some folder) paths) with
    | O => None
    | S n => Some (S n)
    end.
Proof.
  destruct (group_foldl paths ∅ []) as (Hroots & Hfolders & _).
  split; [exact Hroots|]. intros folder.
  unfold group_by_first_folder. rewrite Hfolders, lookup_empty.
  by destruct (length _).
Qed.

Lemma service_block_count service paths :
  block_count (service_block service paths) = length paths.
Proof. unfold service_block. by destruct (group_by_first_folder paths). Qed.

Lemma service_block_service service paths :
  block_service (service_block service paths) = service.
Proof. unfold service_block. by destruct (group_by_first_folder paths). Qed.

(** X15.  In what is reported for a service the numbers add up: the numbers
    of the folders, the root scripts that are shown (at most three) and the
    number of the remaining ones make the number of scripts of the
    service. *)
Theorem service_block_adds_up service paths :
  let block := service_block service paths in
  sum_list_with (λ kv : string * nat, kv.2) (block_folders block)
    + length (block_shown block) + default 0 (block_more block)
  = block_count block ∧
  length (block_shown block) ≤ 3.
Proof.
  destruct (group_foldl paths ∅ []) as (_ & _ & Hsum).
  unfold service_block, group_by_first_folder. cbn zeta in *.
  destruct (foldl _ (∅, []) paths) as [folders root_scripts].
  cbn [fst snd block_folders block_shown block_more block_count] in *.
  rewrite map_to_list_empty in Hsum. cbn in Hsum.
  rewrite (sum_sorted_items id), length_fmap, length_take.
  cbv [id] in *. case_decide; cbn [default from_option]; lia.
Qed.

(** X16.  The numbers of scripts reported for the services add up to the
    total of the summary. *)
Theorem summary_counts_add_up scripts :
  sum_list_with block_count (summary scripts) = length scripts.
Proof.
  unfold summary. rewrite <- (by_service_total scripts).
  rewrite <- (sum_sorted_items length).
  induction (sorted_items (by_service scripts)) as [|[s p] l IH]; [done|].
  cbn [fmap list_fmap sum_list_with]. rewrite service_block_count.
  cbn [snd]. f_equal. apply IH.
Qed.

Lemma key_order_total {V : Type} :
  Total (λ x y : string * V, String.le x.1 y.1).
Proof. intros x y. apply (total String.le). Qed.

Lemma by_service_is_Some scripts s :
  is_Some (by_service scripts !! s) ↔ ∃ r, r ∈ scripts ∧ script_service r = s.
Proof.
  unfold by_service. rewrite by_service_foldl, lookup_empty.
  destruct (filter (λ r, script_service r = s) scripts) as [|r l] eqn:Hfilter;
    cbn [fmap list_fmap].
  - split; [by intros []|]. intros (r & Hr & Hs).
    assert (r ∈ filter (λ r, script_service r = s) scripts) as Hin
      by (by apply list_elem_of_filter).
    rewrite Hfilter in Hin. by apply elem_of_nil in Hin.
  - split; [|by eexists]. intros _. exists r.
    assert (r ∈ filter (λ r, script_service r = s) scripts) as Hin
      by (rewrite Hfilter; left).
    apply list_elem_of_filter in Hin as [? ?]. done.
Qed.

(** X17.  The summary reports the services in the order of their names,
    each service once, and exactly the services that have a script. *)
Theorem summary_services_sorted scripts :
  Sorted String.le (block_service <$> summary scripts) ∧
  NoDup (block_service <$> summary scripts) ∧
  ∀ s, s ∈ block_service <$> summary scripts ↔
       ∃ r, r ∈ scripts ∧ script_service r = s.
Proof.
  assert (block_service <$> summary scripts =
          (sorted_items (by_service scripts)).*1) as ->.
  { unfold summary. rewrite <- list_fmap_compose. apply list_fmap_ext.
    intros i [s p] _. cbn. apply service_block_service. }
  unfold sorted_items. split; [|split].
  - apply (Sorted_fmap fst (λ x y : string * list string, String.le x.1 y.1));
      [done|].
    apply Sorted_merge_sort, key_order_total.
  - rewrite merge_sort_Permutation. apply NoDup_fst_map_to_list.
  - intros s. rewrite merge_sort_Permutation, <- by_service_is_Some.
    rewrite list_elem_of_fmap. split.
    + intros ([s' p] & -> & Hin). apply elem_of_map_to_list in Hin. by eexists.
    + intros [p Hp]. exists (s, p). split; [done|]. by apply elem_of_map_to_list.
Qed.

(** ** The loop for duplicate names and the rounds of the run *)

Lemma first_free_bound fs base_path fuel c k :
  first_free fs base_path fuel c = Some k → k < c + fuel.
Proof.
  revert c. induction fuel as [|fuel IH]; intros c; [done|]. cbn [first_free].
  destruct (path_exists fs (suffixed base_path c)).
  - intros H. apply IH in H. lia.
  - intros [= <-]. lia.
Qed.

(** X18.  The loop of lines 133-135 comes to an end, whatever the file
    system holds: the path that lines 130-136 choose exists for every
    computed path, nothing exists at it, and its counter is at most one more
    than the number of entries of the file system. *)
Theorem duplicate_loop_terminates fs file_path :
  file_path ≠ [] →
  ∃ p, resolve_duplicate fs file_path = Done p ∧
       allocated fs file_path p ∧
       (p = file_path ∨
        ∃ counter, p = numbered file_path counter ∧
                   1 ≤ counter ≤ S (size (dirs fs) + size (files fs))).
Proof.
  intros Hne. unfold resolve_duplicate, allocated.
  destruct (path_exists fs file_path) eqn:Hexists.
  - destruct (first_free_total fs file_path 1 Hne) as [k Hk]. rewrite Hk.
    pose proof (first_free_bound _ _ _ _ _ Hk) as Hbound.
    apply first_free_Some in Hk as (Hle & Hfree & Hbelow).
    exists (numbered file_path k). split; [done|]. split.
    + split; [done|]. right. split; [done|]. by exists k.
    + right. exists k. split; [done|]. lia.
  - exists file_path. split; [done|]. split; [|by left].
    split; [done|]. by left.
Qed.

Lemma duplicate_loop_terminates_witness :
  ∃ p, resolve_duplicate empty_fs ["src"; "shared"; "Utils.lua"] = Done p ∧
       allocated empty_fs ["src"; "shared"; "Utils.lua"] p.
Proof.
  destruct (duplicate_loop_terminates empty_fs ["src"; "shared"; "Utils.lua"])
    as (p & Hp & Halloc & _); [discriminate|].
  by exists p.
Defined.
(** X19.  A round of the loop over the items that ends normally, in a
    well-formed file system, removes nothing: the working directory, the
    directories, the recorded folders and the files stay, with the text of
    the files, and the entries of [scripts_found] stay, new ones being added
    at the end. *)
Theorem round_removes_nothing root st item st' :
  well_formed (fs st) →
  process_item root st item = Done st' →
  cwd (fs st') = cwd (fs st) ∧
  dirs (fs st) ⊆ dirs (fs st') ∧
  folder_structure st ⊆ folder_structure st' ∧
  (∀ l content, files (fs st) !! l = Some content →
                files (fs st') !! l = Some content) ∧
  ∃ new, scripts_found st' = scripts_found st ++ new.
Proof.
  intros Hwf Hstep. apply process_item_Done in Hstep as [_ Hstep]; [|done].
  destruct (script_job root item) as [j|].
  - cbn zeta in Hstep.
    destruct Hstep as (ready & file_path & Hmk & _ & _ & _ & Hnone & Hfs &
                       Hfound & Hfst).
    apply makedirs_Done in Hmk as (_ & _ & _ & Hsub & _).
    rewrite Hfs. cbn [cwd dirs files].
    split; [done|]. split; [done|]. split; [|split; [|by eexists]].
    + destruct Hfst as [->| ->]; set_solver.
    + intros l content Hl. rewrite lookup_insert_ne; [done|].
      intros <-. congruence.
  - destruct Hstep as [Hfound Hstep].
    assert (∃ new, scripts_found st' = scripts_found st ++ new) as Hnew
      by (exists []; by rewrite app_nil_r).
    destruct (folder_job root item) as [[svc dir]|].
    + destruct Hstep as [Hmk ->].
      apply makedirs_Done in Hmk as (_ & -> & -> & Hsub & _).
      split; [done|]. split; [done|]. split; [set_solver|done].
    + by destruct Hstep as [-> ->].
Qed.

Lemma round_removes_nothing_witness :
  ∃ st', process_item doc_foo (mkState world_game [] ∅ 1) ([0; 1], foo_script)
         = Done st' ∧
         dirs world_game ⊆ dirs (fs st') ∧
         (∀ l content, files world_game !! l = Some content →
                       files (fs st') !! l = Some content) ∧
         ∃ new, scripts_found st' = [] ++ new.
Proof.
  destruct (process_item doc_foo (mkState world_game [] ∅ 1) ([0; 1], foo_script))
    as [st'| |] eqn:Hstep; [|vm_compute in Hstep; discriminate..].
  exists st'. split; [reflexivity|].
  destruct (round_removes_nothing doc_foo (mkState world_game [] ∅ 1)
              ([0; 1], foo_script) st' well_formed_world_game Hstep)
    as (_ & Hdirs & _ & Hfiles & Hnew).
  split; [exact Hdirs|]. split; [exact Hfiles|exact Hnew].
Defined.
